(** * go-filecoin: the ordered CID set and the chain-state facade

    A shallow embedding of [types/sorted_cid_set.go] (package [types]) and of
    the chain-state read/write facade (package [cst]), with the properties of
    the design document stated and settled against the code.

    Conventions.  A Go [(value, error)] pair is a Rocq pair whose second
    component is [option Error] ([None] is the nil error); collaborators that
    live behind an interface return a sum [Error + T].  A method with a
    pointer receiver that mutates it returns the new receiver next to its
    result. *)

From Stdlib Require Import String Strings.Byte.
From Stdlib Require Import List NArith ZArith Bool Arith Lia.
Import ListNotations.

Set Implicit Arguments.

(** ** Package [types]: content identifiers and [SortedCidSet] *)

Module Types.

(** A content identifier as [cidLess] and [Equals] see it: the two prefix
    fields [Version] and [Codec] (both [uint64]) and the multihash bytes. *)
Record Cid := mkCid {
  Version : N;
  Codec   : N;
  Hash    : list byte
}.

(** [bytes.Compare]: lexicographic comparison of byte strings, with the
    result -1, 0 or +1. *)
Fixpoint bytes_Compare (a b : list byte) : Z :=
  match a, b with
  | [], [] => 0
  | [], _ :: _ => -1
  | _ :: _, [] => 1
  | x :: a', y :: b' =>
      match N.compare (Byte.to_N x) (Byte.to_N y) with
      | Lt => -1
      | Gt => 1
      | Eq => bytes_Compare a' b'
      end
  end%Z.

(** [bytes.Equal]. *)
Definition bytes_Equal (a b : list byte) : bool :=
  (bytes_Compare a b =? 0)%Z.

(** [Equals] of go-cid on two CIDs: all three fields match. *)
Definition Cid_Equals (c o : Cid) : bool :=
  (Codec c =? Codec o)%N && (Version c =? Version o)%N &&
  bytes_Equal (Hash c) (Hash o).

(** [cidLess], as written: a disjunction of the three field comparisons. *)
Definition cidLess (c1 c2 : Cid) : bool :=
  (Version c1 <? Version c2)%N
  || (Codec c1 <? Codec c2)%N
  || (bytes_Compare (Hash c1) (Hash c2) <? 0)%Z.

(** The order of the design document, written from its words: the
    lexicographic order on the triple (version, codec, hash bytes). *)
Definition cidLexLess (a b : Cid) : bool :=
  (Version a <? Version b)%N
  || ((Version a =? Version b)%N &&
      ((Codec a <? Codec b)%N
       || ((Codec a =? Codec b)%N &&
           (bytes_Compare (Hash a) (Hash b) <? 0)%Z))).

(** [sort.Search] of the Go standard library: the loop
    [for i < j { h := (i+j)/2; if !f(h) { i = h+1 } else { j = h } }],
    started at [i = 0], [j = n].  The interval shrinks at every round, so
    [n] rounds are more than the loop ever takes. *)
Fixpoint search_loop (fuel : nat) (f : nat -> bool) (i j : nat) : nat :=
  match fuel with
  | O => i
  | S fuel' =>
      if i <? j then
        let h := (i + j) / 2 in
        if negb (f h) then search_loop fuel' f (h + 1) j
        else search_loop fuel' f i h
      else i
  end.

Definition sort_Search (n : nat) (f : nat -> bool) : nat :=
  search_loop n f 0 n.

(** The set: a slice of CIDs that "should be maintained sorted". *)
Record SortedCidSet := mkSet { s : list Cid }.

(** The index expression [s.s[i]]; an index out of range is a Go panic and
    is [None] here. *)
Definition at_index (l : list Cid) (i : nat) : option Cid := nth_error l i.

(** [search]: [sort.Search(len(s.s), func(i) { return !cidLess(s.s[i], id) })]. *)
Definition search (set : SortedCidSet) (id : Cid) : nat :=
  sort_Search (length (s set))
    (fun i => match at_index (s set) i with
              | Some c => negb (cidLess c id)
              | None => true
              end).

(** The guard [idx < len(s.s) && s.s[idx].Equals(id)] shared by [Add],
    [Has] and [Remove]. *)
Definition found_at (set : SortedCidSet) (idx : nat) (id : Cid) : bool :=
  (idx <? length (s set)) &&
  match at_index (s set) idx with
  | Some c => Cid_Equals c id
  | None => false
  end.

(** [Add]: the receiver after the call and the returned flag.  The
    [append]/[copy]/assignment sequence opens a slot at [idx]. *)
Definition Add (set : SortedCidSet) (id : Cid) : SortedCidSet * bool :=
  let idx := search set id in
  if found_at set idx id then (set, false)
  else (mkSet (firstn idx (s set) ++ id :: skipn idx (s set)), true).

Definition Has (set : SortedCidSet) (id : Cid) : bool :=
  found_at set (search set id) id.

Definition Len (set : SortedCidSet) : nat := length (s set).

Definition Empty (set : SortedCidSet) : bool := Len set =? 0.

(** [Remove]: [copy(s.s[idx:], s.s[idx+1:])] then drop the last slot. *)
Definition Remove (set : SortedCidSet) (id : Cid) : SortedCidSet * bool :=
  let idx := search set id in
  if found_at set idx id
  then (mkSet (firstn idx (s set) ++ skipn (idx + 1) (s set)), true)
  else (set, false).

(** [Clear]: [s.s = s.s[:0]]. *)
Definition Clear (set : SortedCidSet) : SortedCidSet :=
  mkSet (firstn 0 (s set)).

(** [NewSortedCidSet]: [Add] every item, in order, to the zero value. *)
Definition NewSortedCidSet (ids : list Cid) : SortedCidSet :=
  fold_left (fun res id => fst (Add res id)) ids (mkSet []).

(** The iterator: the slice and a cursor. *)
Record sortedCidSetIterator := mkIter { it_s : list Cid; it_i : nat }.

Definition Iter (set : SortedCidSet) : sortedCidSetIterator :=
  mkIter (s set) 0.

Definition Complete (si : sortedCidSetIterator) : bool :=
  length (it_s si) <=? it_i si.

(** [Next] advances the cursor while it is inside the slice.  The
    [panic("unreached")] arm needs a cursor beyond the length, which [Iter]
    and [Next] never produce; the iterator is left as it is there. *)
Definition Next (si : sortedCidSetIterator) : sortedCidSetIterator * bool :=
  if it_i si <? length (it_s si)
  then (mkIter (it_s si) (it_i si + 1), it_i si + 1 <? length (it_s si))
  else (si, false).

(** [Value]: the item under the cursor, [nil] ([None]) at the end. *)
Definition Value (si : sortedCidSetIterator) : option Cid :=
  if it_i si <? length (it_s si) then at_index (it_s si) (it_i si) else None.

(** [a.Equals(b)] on the pointers [Value] returns; a nil operand would be a
    nil dereference, which the loop of [Equals] never meets. *)
Definition ptr_Equals (a b : option Cid) : bool :=
  match a, b with
  | Some x, Some y => Cid_Equals x y
  | _, _ => false
  end.

(** The loop of [Equals]: [n] rounds, each comparing [i1.Value()] with
    [i2.Value()].  Neither iterator is advanced in the body. *)
Fixpoint equals_loop (n : nat) (i1 i2 : sortedCidSetIterator) : bool :=
  match n with
  | O => true
  | S n' =>
      if negb (ptr_Equals (Value i1) (Value i2)) then false
      else equals_loop n' i1 i2
  end.

Definition Equals (s1 s2 : SortedCidSet) : bool :=
  if negb (Len s1 =? Len s2) then false
  else equals_loop (Len s1) (Iter s1) (Iter s2).

(** The loop of [ToSlice] (and of [String]):
    [for it := s.Iter(); !it.Complete(); it.Next() { ... it.Value() ... }]. *)
Fixpoint iter_loop (fuel : nat) (it : sortedCidSetIterator)
    (out : list (option Cid)) : list (option Cid) :=
  match fuel with
  | O => out
  | S fuel' =>
      if Complete it then out
      else iter_loop fuel' (fst (Next it)) (out ++ [Value it])
  end.

Definition ToSlice (set : SortedCidSet) : list (option Cid) :=
  iter_loop (Len set) (Iter set) [].

(** Errors of the two decoders. *)
Inductive Error :=
| ErrInvalidSerialization (a b : Cid)
| ErrCidsNotSorted
| ErrJSON (msg : string).

(** The loop [for i := 0; i < len(s)-1; i++ { if !cidLess(s[i], s[i+1]) ... }]
    of both decoders: the first adjacent pair that is not [cidLess]. *)
Fixpoint first_unsorted (l : list Cid) : option (Cid * Cid) :=
  match l with
  | a :: ((b :: _) as t) =>
      if negb (cidLess a b) then Some (a, b) else first_unsorted t
  | _ => None
  end.

(** The CBOR marshal transform: the slice itself. *)
Definition TransformMarshal (set : SortedCidSet) : list Cid * option Error :=
  (s set, None).

(** The CBOR unmarshal transform. *)
Definition TransformUnmarshal (l : list Cid) : SortedCidSet * option Error :=
  match first_unsorted l with
  | Some (a, b) => (mkSet [], Some (ErrInvalidSerialization a b))
  | None => (mkSet l, None)
  end.

(** [UnmarshalJSON], over the JSON decoder of a CID list
    ([json.Unmarshal(b, &ts)]): the receiver after the call and the error. *)
Definition UnmarshalJSON (json_Unmarshal : list byte -> Error + list Cid)
    (set : SortedCidSet) (b : list byte) : SortedCidSet * option Error :=
  match json_Unmarshal b with
  | inl err => (set, Some err)
  | inr ts =>
      match first_unsorted ts with
      | Some _ => (set, Some ErrCidsNotSorted)
      | None => (mkSet ts, None)
      end
  end.

(** Strictly increasing lists: every adjacent pair is in the order. *)
Fixpoint increasing (lt : Cid -> Cid -> bool) (l : list Cid) : bool :=
  match l with
  | a :: ((b :: _) as t) => lt a b && increasing lt t
  | _ => true
  end.

(** Some identifiers and sets for concrete runs: version-1 CIDs with the
    codecs raw (0x55), dag-pb (0x70) and dag-cbor (0x71) and an identity
    multihash of one byte ([0x00; 0x01; digest]).  [cidA] has the smallest
    codec and is first in the lexicographic order of the triple. *)
Definition cidA : Cid := mkCid 1 85 [x00; x01; x01].
Definition cidB : Cid := mkCid 1 112 [x00; x01; x00].
Definition cidB' : Cid := mkCid 1 112 [x00; x01; x01].
Definition cidRaw0 : Cid := mkCid 1 85 [x00; x01; x00].
Definition cidRaw2 : Cid := mkCid 1 85 [x00; x01; x02].
Definition cidPb2 : Cid := mkCid 1 112 [x00; x01; x02].
Definition cidCbor0 : Cid := mkCid 1 113 [x00; x01; x00].

Definition setAB : SortedCidSet := NewSortedCidSet [cidA; cidB].
Definition setAB' : SortedCidSet := NewSortedCidSet [cidA; cidB'].
Definition setABA : SortedCidSet := NewSortedCidSet [cidA; cidB; cidA].
Definition setFive : SortedCidSet :=
  NewSortedCidSet [cidRaw0; cidA; cidRaw2; cidPb2; cidCbor0].

(** A decoder of CID lists for concrete runs of [UnmarshalJSON]: two bytes
    per CID, the codec and the digest byte. *)
Fixpoint exampleUnmarshal (b : list byte) : Error + list Cid :=
  match b with
  | [] => inr []
  | c :: h :: rest =>
      match exampleUnmarshal rest with
      | inr l => inr (mkCid 1 (Byte.to_N c) [x00; x01; h] :: l)
      | inl e => inl e
      end
  | _ => inl (ErrJSON "unexpected end of input")
  end.

(** CIDs of one kind: the same version and the same codec, as the block
    CIDs of a tipset key have. *)
Definition same_prefix (v c : N) (x : Cid) : bool :=
  (Version x =? v)%N && (Codec x =? c)%N.

Definition all_prefix (v c : N) (l : list Cid) : bool :=
  forallb (same_prefix v c) l.

(** An iterator after [k] calls of [Next]. *)
Fixpoint advance (k : nat) (si : sortedCidSetIterator) : sortedCidSetIterator :=
  match k with
  | O => si
  | S k' => fst (Next (advance k' si))
  end.

(** A set of three raw-codec CIDs, given out of order. *)
Definition setRaw : SortedCidSet := NewSortedCidSet [cidRaw2; cidRaw0; cidA].

End Types.

(** ** Package [cst]: the chain-state read/write facade *)

Module Cst.

Abbreviation Cid := Types.Cid.

(** [cid.Undef], the zero CID, and [Defined]. *)
Definition cid_Undef : Cid := Types.mkCid 0 0 [].

Definition Defined (c : Cid) : bool := negb (Types.Cid_Equals c cid_Undef).

(** [block.TipSetKey]: the canonical list of block CIDs.
    [block.UndefTipSet.Key()] is the empty key. *)
Definition TipSetKey := list Cid.

Definition UndefTipSetKey : TipSetKey := [].

Record TipSet := mkTipSet { ts_Key : TipSetKey; ts_Height : N }.

(** [address.Address]: the undefined address and the four protocols. *)
Inductive Address :=
| Undef
| IDAddress (id : N)
| SECP256K1 (payload : list byte)
| ActorAddress (payload : list byte)
| BLS (payload : list byte).

(** [addr.Protocol() == address.ID]. *)
Definition is_ID (a : Address) : bool :=
  match a with IDAddress _ => true | _ => false end.

Definition bytes_eqb (a b : list byte) : bool := Types.bytes_Equal a b.

Definition Address_eqb (a b : Address) : bool :=
  match a, b with
  | Undef, Undef => true
  | IDAddress x, IDAddress y => (x =? y)%N
  | SECP256K1 x, SECP256K1 y => bytes_eqb x y
  | ActorAddress x, ActorAddress y => bytes_eqb x y
  | BLS x, BLS y => bytes_eqb x y
  | _, _ => false
  end.

(** [builtin.InitActorAddr]: the well-known identifier address of the
    address-registry (init) actor. *)
Definition InitActorAddr : Address := IDAddress 1.

(** [abi.MethodNum] and the reserved value-transfer method
    [builtin.MethodSend]. *)
Definition MethodNum := N.

Definition MethodSend : MethodNum := 0%N.

(** The errors the facade returns or passes on. *)
Inductive Error :=
| ErrNotFound                                (* types.ErrNotFound *)
| ErrNoMethod                                (* "no method" *)
| ErrNoActorImpl                             (* "no actor implementation" *)
| actorNotRegisteredError                    (* "actor not registered" *)
| Wrapped (cause : Error) (msg : string)     (* errors.Wrap / errors.Wrapf *)
| ErrMissingExport (method : MethodNum)      (* fmt.Errorf("missing export: %d") *)
| ErrExternal (msg : string).                (* an error made by a collaborator *)

(** [errors.Wrap] of github.com/pkg/errors: "If err is nil, Wrap returns
    nil."  [errors.Wrapf] behaves alike. *)
Definition errors_Wrap (err : option Error) (msg : string) : option Error :=
  match err with
  | None => None
  | Some e => Some (Wrapped e msg)
  end.

Definition errors_Wrapf (err : option Error) (format : string) : option Error :=
  errors_Wrap err format.

(** [actor.Actor]: code identifier, head-state identifier, sequence number
    and balance. *)
Record Actor := mkActor {
  Code_Cid : Cid;      (* Code.Cid *)
  Head_Cid : Cid;      (* Head.Cid *)
  CallSeqNum : N;
  Balance : Z
}.

(** Modelled from the spec: [Actor.Empty] of the repository's actor package,
    which is not part of the sources at hand: the actor "has no code". *)
Definition Actor_Empty (a : Actor) : bool := negb (Defined (Code_Cid a)).

(** [vmstate.Tree]: the state tree of one tipset, through its [GetActor]
    method, which returns the Go triple [(actor, found, err)]. *)
Record Tree := mkTree {
  Tree_GetActor : Address -> option Actor * bool * option Error
}.

(** [blocks.Block]. *)
Record Block := mkBlock { blk_Cid : Cid; RawData : list byte }.

(** The state of the address-registry actor: the address to identifier
    mapping. *)
Record InitState := mkInitState { AddressMap : Address -> option N }.

(** Modelled from the spec: [State.ResolveAddress] of the init actor, which
    comes from the specs-actors dependency and is not part of the sources at
    hand: an address already in identifier form is returned as it is (the
    fast path), any other address is looked up in the mapping, and a
    missing mapping is the actor-not-found failure. *)
Definition ResolveAddress (st : InitState) (a : Address)
  : Address * option Error :=
  if is_ID a then (a, None)
  else match AddressMap st a with
       | Some id => (IDAddress id, None)
       | None => (Undef, Some actorNotRegisteredError)
       end.

(** [vm.ActorMethodSignature]. *)
Record ActorMethodSignature := mkSig {
  ParamTypes : list string;
  ReturnTypes : list string
}.

(** The executable of an actor code: its [Signature] method. *)
Record Executable := mkExecutable {
  Signature : MethodNum -> Error + ActorMethodSignature
}.

(** [vm.ActorCodeLoader]. *)
Record ActorCodeLoader := mkLoader {
  GetActorImpl : Cid -> Error + Executable
}.

(** The interface [chainReadWriter], over the type [S] of the chain store's
    states.  [SetHead] is the only method that yields a new state. *)
Class chainReadWriter (S : Type) := {
  GetHead : S -> TipSetKey;
  GetTipSet : S -> TipSetKey -> Error + TipSet;
  GetTipSetState : S -> TipSetKey -> Error + Tree;
  GetTipSetStateRoot : S -> TipSetKey -> Error + Cid;
  rw_SetHead : S -> TipSet -> S * option Error
}.

(** The interface [blockstore.Blockstore], over the type [B] of its states. *)
Class Blockstore (B : Type) := {
  bs_Get : B -> Cid -> Error + Block;
  bs_Put : B -> Block -> B * option Error
}.

(** [encoding.Decode] into an [initactor.State]. *)
Class Decoder := {
  encoding_Decode : list byte -> Error + InitState
}.

(** The facade: chain store, block store and actor-code loader. *)
Record ChainStateReadWriter (S B : Type) := mkChn {
  readWriter : S;
  bstore : B;
  actors : ActorCodeLoader
}.

Arguments mkChn {S B} _ _ _.
Arguments readWriter {S B} _.
Arguments bstore {S B} _.
Arguments actors {S B} _.

(** *** Calls to collaborators, observed

    A read operation is a computation that returns its Go result together
    with the list of collaborator calls it made, in order; [None] in place
    of the result is a Go panic (a nil dereference). *)
Inductive Event :=
| CallGetHead
| CallGetTipSetState (key : TipSetKey)
| CallTreeGetActor (a : Address)
| CallBstoreGet (c : Cid)
| CallDecode (raw : list byte)
| CallResolveAddress (a : Address)
| CallGetActorImpl (c : Cid)
| CallSignature (m : MethodNum).

Definition M (A : Type) : Type := (list Event * option A)%type.

Definition ret {A : Type} (a : A) : M A := ([], Some a).

Definition panic {A : Type} : M A := ([], None).

Definition call {A : Type} (ev : Event) (v : A) : M A := ([ev], Some v).

Definition bind {A B : Type} (m : M A) (f : A -> M B) : M B :=
  match m with
  | (t, None) => (t, None)
  | (t, Some a) => let (t', b) := f a in (t ++ t', b)
  end.

Definition trace {A : Type} (m : M A) : list Event := fst m.

Definition result {A : Type} (m : M A) : option A := snd m.

Declare Scope go_scope.
Delimit Scope go_scope with go.

Notation "x <- c1 ;; c2" := (bind c1 (fun x => c2))
  (at level 61, c1 at next level, right associativity) : go_scope.

Notation "' pat <- c1 ;; c2" :=
  (bind c1 (fun x => match x with pat => c2 end))
  (at level 61, pat pattern, c1 at next level, right associativity) : go_scope.

Open Scope go_scope.

Section Facade.

Context {S B : Type} `{chainReadWriter S} `{Blockstore B} `{Decoder}.

(** [Head]. *)
Definition Head (chn : ChainStateReadWriter S B) : TipSetKey :=
  GetHead (readWriter chn).

(** [ResolveAddressAt]. *)
Definition ResolveAddressAt (chn : ChainStateReadWriter S B)
    (tipKey : TipSetKey) (addr : Address) : M (Address * option Error) :=
  r <- call (CallGetTipSetState tipKey)
            (GetTipSetState (readWriter chn) tipKey) ;;
  match r with
  | inl err => ret (Undef, errors_Wrap (Some err) "failed to load latest state")
  | inr st =>
      '(init, found, err) <- call (CallTreeGetActor InitActorAddr)
                                  (Tree_GetActor st InitActorAddr) ;;
      match err with
      | Some e => ret (Undef, Some e)
      | None =>
          if negb found
          then ret (Undef, errors_Wrapf err "no actor at address %s")
          else
            match init with
            | None => panic
            | Some init =>
                b <- call (CallBstoreGet (Head_Cid init))
                          (bs_Get (bstore chn) (Head_Cid init)) ;;
                match b with
                | inl e => ret (Undef, Some e)
                | inr blk =>
                    d <- call (CallDecode (RawData blk))
                              (encoding_Decode (RawData blk)) ;;
                    match d with
                    | inl e => ret (Undef, Some e)
                    | inr state =>
                        call (CallResolveAddress addr)
                             (ResolveAddress state addr)
                    end
                end
            end
      end
  end.

(** [GetActorAt]. *)
Definition GetActorAt (chn : ChainStateReadWriter S B)
    (tipKey : TipSetKey) (addr : Address) : M (option Actor * option Error) :=
  r <- call (CallGetTipSetState tipKey)
            (GetTipSetState (readWriter chn) tipKey) ;;
  match r with
  | inl err => ret (None, errors_Wrap (Some err) "failed to load latest state")
  | inr st =>
      '(idAddr, err) <- ResolveAddressAt chn tipKey addr ;;
      match err with
      | Some e => ret (None, Some e)
      | None =>
          '(actr, found, err) <- call (CallTreeGetActor idAddr)
                                      (Tree_GetActor st idAddr) ;;
          match err with
          | Some e => ret (None, Some e)
          | None =>
              if negb found then ret (None, Some ErrNotFound)
              else ret (actr, None)
          end
      end
  end.

(** [GetActor]: [GetActorAt] at the current head. *)
Definition GetActor (chn : ChainStateReadWriter S B) (addr : Address)
  : M (option Actor * option Error) :=
  head <- call CallGetHead (GetHead (readWriter chn)) ;;
  GetActorAt chn head addr.

(** [GetActorSignature]. *)
Definition GetActorSignature (chn : ChainStateReadWriter S B)
    (actorAddr : Address) (method : MethodNum)
  : M (option ActorMethodSignature * option Error) :=
  if (method =? MethodSend)%N then ret (None, Some ErrNoMethod)
  else
    '(actor, err) <- GetActor chn actorAddr ;;
    match err with
    | Some e => ret (None, errors_Wrap (Some e) "failed to get actor")
    | None =>
        match actor with
        | None => panic
        | Some actor =>
            if Actor_Empty actor then ret (None, Some ErrNoActorImpl)
            else
              x <- call (CallGetActorImpl (Code_Cid actor))
                        (GetActorImpl (actors chn) (Code_Cid actor)) ;;
              match x with
              | inl e => ret (None, errors_Wrap (Some e) "failed to load actor code")
              | inr executable =>
                  sg <- call (CallSignature method)
                             (Signature executable method) ;;
                  match sg with
                  | inl _ => ret (None, Some (ErrMissingExport method))
                  | inr signature => ret (Some signature, None)
                  end
              end
        end
    end.

(** [SetHead]: the facade after the call and the error. *)
Definition SetHead (chn : ChainStateReadWriter S B) (key : TipSetKey)
  : ChainStateReadWriter S B * option Error :=
  match GetTipSet (readWriter chn) key with
  | inl err => (chn, Some err)
  | inr headTs =>
      let (rw', err) := rw_SetHead (readWriter chn) headTs in
      (mkChn rw' (bstore chn) (actors chn), err)
  end.

(** What [chain.Import] can do with the [carStore] it is handed: the
    [carStore] wraps the block store and has the one method [Put], so an
    import is a sequence of [Put]s, each answered with the store's error
    value, ended by the head key and error it returns. *)
Inductive carProgram :=
| carReturn (headKey : TipSetKey) (err : option Error)
| carPut (b : Block) (next : option Error -> carProgram).

(** [carStore.Put] forwards to the block store; running an import threads
    the block store through its [Put]s. *)
Fixpoint run_car (p : carProgram) (store : B)
  : B * (TipSetKey * option Error) :=
  match p with
  | carReturn headKey err => (store, (headKey, err))
  | carPut b next =>
      let (store', e) := bs_Put store b in
      run_car (next e) store'
  end.

(** [ChainImport], over the behaviour [chain_Import] of [chain.Import] on
    the input stream: the facade after the call, the returned key and the
    error. *)
Definition ChainImport (chain_Import : list byte -> carProgram)
    (chn : ChainStateReadWriter S B) (input : list byte)
  : ChainStateReadWriter S B * (TipSetKey * option Error) :=
  let '(store', (headKey, err)) := run_car (chain_Import input) (bstore chn) in
  let chn' := mkChn (readWriter chn) store' (actors chn) in
  match err with
  | Some e => (chn', (UndefTipSetKey, Some e))
  | None => (chn', (headKey, None))
  end.

(** [ReadObj]: the raw bytes of a block. *)
Definition ReadObj (chn : ChainStateReadWriter S B) (obj : Cid)
  : M (option (list byte) * option Error) :=
  b <- call (CallBstoreGet obj) (bs_Get (bstore chn) obj) ;;
  match b with
  | inl err => ret (None, Some err)
  | inr blk => ret (Some (RawData blk), None)
  end.

(** [GetActorStateAt], over the decoder [decode] of the shape [T] the caller
    passes as [out]: the decoded value, when there is one, and the error. *)
Definition GetActorStateAt {T : Type} (decode : list byte -> Error + T)
    (chn : ChainStateReadWriter S B) (tipKey : TipSetKey) (addr : Address)
  : M (option T * option Error) :=
  '(act, err) <- GetActorAt chn tipKey addr ;;
  match err with
  | Some e => ret (None, Some e)
  | None =>
      match act with
      | None => panic
      | Some act =>
          b <- call (CallBstoreGet (Head_Cid act))
                    (bs_Get (bstore chn) (Head_Cid act)) ;;
          match b with
          | inl e => ret (None, Some e)
          | inr blk =>
              d <- call (CallDecode (RawData blk)) (decode (RawData blk)) ;;
              match d with
              | inl e => ret (None, Some e)
              | inr v => ret (Some v, None)
              end
          end
      end
  end.

End Facade.

(** A trace consults the registry when it looks up the init actor in a state
    tree, fetches a head state from the block store or decodes one. *)
Definition registry_event (ev : Event) : bool :=
  match ev with
  | CallTreeGetActor a => Address_eqb a InitActorAddr
  | CallBstoreGet _ => true
  | CallDecode _ => true
  | _ => false
  end.

Definition consults_registry (t : list Event) : bool :=
  existsb registry_event t.

(** *** A small node, for concrete runs

    Modelled from the spec: the chain index behind [chainReadWriter], whose
    implementation is not part of the sources at hand: it names the current
    head, finds a tipset, its state tree and its state root by key (or fails
    with not-found), and [SetHead] makes the given tipset the head. *)
Record chainStore := mkStore {
  cs_head : TipSetKey;
  cs_tipsets : list (TipSet * Tree * Cid)
}.

Fixpoint key_eqb (k1 k2 : TipSetKey) : bool :=
  match k1, k2 with
  | [], [] => true
  | a :: k1', b :: k2' => Types.Cid_Equals a b && key_eqb k1' k2'
  | _, _ => false
  end.

Fixpoint find_tipset (key : TipSetKey) (l : list (TipSet * Tree * Cid))
  : option (TipSet * Tree * Cid) :=
  match l with
  | [] => None
  | ((ts, st, root) as e) :: l' =>
      if key_eqb (ts_Key ts) key then Some e else find_tipset key l'
  end.

#[export] Instance chainStore_rw : chainReadWriter chainStore := {
  GetHead st := cs_head st;
  GetTipSet st key :=
    match find_tipset key (cs_tipsets st) with
    | Some (ts, _, _) => inr ts
    | None => inl ErrNotFound
    end;
  GetTipSetState st key :=
    match find_tipset key (cs_tipsets st) with
    | Some (_, tree, _) => inr tree
    | None => inl ErrNotFound
    end;
  GetTipSetStateRoot st key :=
    match find_tipset key (cs_tipsets st) with
    | Some (_, _, root) => inr root
    | None => inl ErrNotFound
    end;
  rw_SetHead st ts := (mkStore (ts_Key ts) (cs_tipsets st), None)
}.

(** Modelled from the spec: the block store collaborator, [Get(cid)] giving
    the bytes or not-found and [Put(block)]; here a list of blocks. *)
Definition memBlockstore := list Block.

Fixpoint mem_Get (store : memBlockstore) (c : Cid) : Error + Block :=
  match store with
  | [] => inl ErrNotFound
  | b :: store' =>
      if Types.Cid_Equals (blk_Cid b) c then inr b else mem_Get store' c
  end.

#[export] Instance memBlockstore_bs : Blockstore memBlockstore := {
  bs_Get := mem_Get;
  bs_Put store b := (b :: store, None)
}.

(** A state tree given by the list of its entries. *)
Fixpoint lookup_actor (l : list (Address * Actor)) (a : Address)
  : option Actor * bool * option Error :=
  match l with
  | [] => (None, false, None)
  | (a', act) :: l' =>
      if Address_eqb a' a then (Some act, true, None) else lookup_actor l' a
  end.

Definition tree_of (l : list (Address * Actor)) : Tree :=
  mkTree (lookup_actor l).

Definition accountCode : Cid := Types.mkCid 1 85 [x0a].
Definition initCode : Cid := Types.mkCid 1 85 [x01].
Definition initHead : Cid := Types.mkCid 1 113 [x01].
Definition accountHead : Cid := Types.mkCid 1 113 [x02].

Definition initActor : Actor := mkActor initCode initHead 0 0.
Definition accountActor : Actor := mkActor accountCode accountHead 3 1000.
(** An address that received value but has no code yet. *)
Definition emptyActor : Actor := mkActor cid_Undef cid_Undef 0 5.

(** A tree with the init actor, an account actor and an empty actor; and a
    tree without the init actor. *)
Definition exampleTree : Tree :=
  tree_of [(InitActorAddr, initActor);
           (IDAddress 100, accountActor);
           (IDAddress 101, emptyActor)].

Definition treeNoInit : Tree :=
  tree_of [(IDAddress 100, accountActor)].

(** The registry state: two keys with actors in the tree, one key whose
    identifier has no actor record yet. *)
Definition exampleInitState : InitState :=
  mkInitState (fun a =>
    if Address_eqb a (BLS [x0a]) then Some 100%N
    else if Address_eqb a (BLS [x0b]) then Some 101%N
    else if Address_eqb a (SECP256K1 [x0c]) then Some 200%N
    else None).

#[export] Instance exampleDecoder : Decoder := {
  encoding_Decode raw :=
    if bytes_eqb raw [x01] then inr exampleInitState
    else inl (ErrExternal "decode")
}.

Definition key0 : TipSetKey := [Types.cidA].
Definition key1 : TipSetKey := [Types.cidB].

Definition exampleStore : chainStore :=
  mkStore key0
    [(mkTipSet key0 10, exampleTree, Types.mkCid 1 113 [x10]);
     (mkTipSet key1 11, treeNoInit, Types.mkCid 1 113 [x11])].

(** The account code exports method 1 only. *)
Definition accountExecutable : Executable :=
  mkExecutable (fun m =>
    if (m =? 1)%N then inr (mkSig ["address"%string] [])
    else inl (ErrExternal "no such method")).

Definition exampleLoader : ActorCodeLoader :=
  mkLoader (fun c =>
    if Types.Cid_Equals c accountCode then inr accountExecutable
    else inl (ErrExternal "no implementation")).

Definition exampleChn : ChainStateReadWriter chainStore memBlockstore :=
  mkChn exampleStore [mkBlock initHead [x01]] exampleLoader.

(** An import that stores one block per input byte and names the first as
    the head; an empty stream is a corrupt archive. *)
Fixpoint put_all (bs : list byte) (headKey : TipSetKey) : carProgram :=
  match bs with
  | [] => carReturn headKey None
  | b :: bs' =>
      carPut (mkBlock (Types.mkCid 1 113 [b]) [b])
        (fun e => match e with
                  | Some err => carReturn UndefTipSetKey (Some err)
                  | None => put_all bs' headKey
                  end)
  end.

Definition exampleImport (input : list byte) : carProgram :=
  match input with
  | [] => carReturn UndefTipSetKey (Some (ErrExternal "corrupt archive"))
  | b :: _ => put_all input [Types.mkCid 1 113 [b]]
  end.

(** A second small node, whose tipsets fail in different places: a tree
    that cannot be read, a tree whose init actor points at a head state the
    block store lacks, and one whose head state does not decode. *)
Definition treeBroken : Tree :=
  mkTree (fun _ => (None, false, Some (ErrExternal "state tree read failed"))).

Definition lostHead : Cid := Types.mkCid 1 113 [x03].
Definition junkHead : Cid := Types.mkCid 1 113 [x04].

Definition treeLostHead : Tree :=
  tree_of [(InitActorAddr, mkActor initCode lostHead 0 0)].

Definition treeJunkHead : Tree :=
  tree_of [(InitActorAddr, mkActor initCode junkHead 0 0)].

(** A tree that answers for the init actor and fails for every other
    address. *)
Definition treePartial : Tree :=
  mkTree (fun a =>
    if Address_eqb a InitActorAddr then (Some initActor, true, None)
    else (None, false, Some (ErrExternal "state tree read failed"))).

Definition key2 : TipSetKey := [Types.cidRaw0].
Definition key3 : TipSetKey := [Types.cidRaw2].
Definition key4 : TipSetKey := [Types.cidPb2].
Definition key5 : TipSetKey := [Types.cidCbor0].

Definition faultyStore : chainStore :=
  mkStore key0
    [(mkTipSet key0 10, exampleTree, Types.mkCid 1 113 [x10]);
     (mkTipSet key2 12, treeBroken, Types.mkCid 1 113 [x12]);
     (mkTipSet key3 13, treeLostHead, Types.mkCid 1 113 [x13]);
     (mkTipSet key4 14, treeJunkHead, Types.mkCid 1 113 [x14]);
     (mkTipSet key5 15, treePartial, Types.mkCid 1 113 [x15])].

Definition faultyChn : ChainStateReadWriter chainStore memBlockstore :=
  mkChn faultyStore
    [mkBlock initHead [x01]; mkBlock junkHead [x02]] exampleLoader.

End Cst.

(** * Properties of the ordered CID set *)

Module SortedCidSetFacts.

Import Types.

(** ** The binary search terminates within its fuel *)

Lemma midpoint_bounds (i j : nat) :
  i < j -> i <= (i + j) / 2 /\ (i + j) / 2 < j.
Proof.
  intros Hij.
  pose proof (Nat.div_mod_eq (i + j) 2) as Hd.
  pose proof (Nat.mod_upper_bound (i + j) 2) as Hm.
  lia.
Qed.

Lemma search_loop_S (f : nat -> bool) (fuel i j : nat) :
  search_loop (S fuel) f i j =
  if i <? j then
    if negb (f ((i + j) / 2)) then search_loop fuel f ((i + j) / 2 + 1) j
    else search_loop fuel f i ((i + j) / 2)
  else i.
Proof. reflexivity. Qed.

Lemma search_loop_fuel (f : nat -> bool) (fuel1 : nat) :
  forall fuel2 i j,
    j - i <= fuel1 -> j - i <= fuel2 ->
    search_loop fuel1 f i j = search_loop fuel2 f i j.
Proof.
  induction fuel1 as [|fuel1 IH]; intros fuel2 i j H1 H2.
  - destruct fuel2 as [|fuel2]; [reflexivity|].
    rewrite search_loop_S. cbn [search_loop].
    destruct (Nat.ltb_spec i j); [lia | reflexivity].
  - destruct fuel2 as [|fuel2]; rewrite !search_loop_S.
    + cbn [search_loop]. destruct (Nat.ltb_spec i j); [lia | reflexivity].
    + destruct (Nat.ltb_spec i j) as [Hlt|Hge]; [|reflexivity].
      destruct (midpoint_bounds Hlt) as [Hlo Hhi].
      destruct (f ((i + j) / 2)); cbn [negb]; apply IH; lia.
Qed.

Lemma search_loop_bounds (f : nat -> bool) (fuel : nat) :
  forall i j, i <= j -> i <= search_loop fuel f i j <= j.
Proof.
  induction fuel as [|fuel IH]; intros i j Hij.
  - cbn [search_loop]. lia.
  - rewrite search_loop_S.
    destruct (Nat.ltb_spec i j) as [Hlt|Hge]; [|lia].
    destruct (midpoint_bounds Hlt) as [Hlo Hhi].
    destruct (f ((i + j) / 2)); cbn [negb].
    + specialize (IH i ((i + j) / 2) Hlo). lia.
    + specialize (IH ((i + j) / 2 + 1) j). lia.
Qed.

(** The loop keeps its invariant "[f] is false just below [i] and true at
    [j]", so the index [sort.Search] returns has [f] false just below it
    and true at it (where those positions exist). *)
Lemma search_loop_post (f : nat -> bool) (n fuel : nat) :
  forall i j,
    i <= j -> j - i <= fuel ->
    (i = 0 \/ f (i - 1) = false) ->
    (j = n \/ f j = true) ->
    (search_loop fuel f i j = 0 \/
     f (search_loop fuel f i j - 1) = false) /\
    (search_loop fuel f i j = n \/ f (search_loop fuel f i j) = true).
Proof.
  induction fuel as [|fuel IH]; intros i j Hij Hf Hlo Hhi.
  - cbn [search_loop]. assert (i = j) by lia. subst j. split; assumption.
  - rewrite search_loop_S.
    destruct (Nat.ltb_spec i j) as [Hlt|Hge].
    + destruct (midpoint_bounds Hlt) as [Hl Hh].
      destruct (f ((i + j) / 2)) eqn:Hfh; cbn [negb].
      * apply IH; try lia; auto.
      * apply IH; try lia; auto.
        right. replace ((i + j) / 2 + 1 - 1) with ((i + j) / 2) by lia.
        exact Hfh.
    + assert (i = j) by lia. subst j. split; assumption.
Qed.

Lemma sort_Search_post (f : nat -> bool) (n : nat) :
  sort_Search n f <= n /\
  (sort_Search n f = 0 \/ f (sort_Search n f - 1) = false) /\
  (sort_Search n f = n \/ f (sort_Search n f) = true).
Proof.
  unfold sort_Search. split.
  - apply (search_loop_bounds f n (i := 0) (j := n)). lia.
  - apply search_loop_post; auto; lia.
Qed.

(** ** What [Equals] computes *)

Lemma equals_loop_spec (n : nat) (i1 i2 : sortedCidSetIterator) :
  equals_loop n i1 i2 = true <->
  (n = 0 \/ ptr_Equals (Value i1) (Value i2) = true).
Proof.
  induction n as [|n IH]; simpl.
  - split; auto.
  - destruct (ptr_Equals (Value i1) (Value i2)); simpl.
    + rewrite IH. split; auto.
    + split; [discriminate|]. intros [H|H]; discriminate.
Qed.

(** [Equals] holds exactly when the lengths agree and, unless the sets are
    empty, the items at position 0 are equal. *)
Lemma Equals_spec (s1 s2 : SortedCidSet) :
  Equals s1 s2 = true <->
  Len s1 = Len s2 /\
  (Len s1 = 0 \/ ptr_Equals (at_index (s s1) 0) (at_index (s s2) 0) = true).
Proof.
  unfold Equals. destruct (Nat.eqb_spec (Len s1) (Len s2)) as [Hlen|Hlen]; simpl.
  - rewrite equals_loop_spec. unfold Value, Iter; simpl.
    split.
    + intros [H0|H]; [auto|]. split; [assumption|].
      unfold Len in *. rewrite <- Hlen in H.
      destruct (Nat.ltb_spec 0 (length (s s1))); [auto | left; lia].
    + intros [_ [H0|H]]; [auto|].
      unfold Len in *. rewrite <- Hlen.
      destruct (Nat.ltb_spec 0 (length (s s1))); [auto | left; lia].
  - split; [discriminate | intros [H _]; contradiction].
Qed.

(** ** What the decoders check *)

Lemma first_unsorted_increasing (l : list Cid) :
  first_unsorted l = None <-> increasing cidLess l = true.
Proof.
  induction l as [|a [|b t] IH]; simpl; try (split; reflexivity).
  simpl in IH. destruct (cidLess a b); simpl.
  - exact IH.
  - split; discriminate.
Qed.

(** The CBOR transform accepts a list exactly when every adjacent pair is
    in [cidLess], and then keeps the list as it is. *)
Lemma TransformUnmarshal_accepts (l : list Cid) :
  snd (TransformUnmarshal l) = None <-> increasing cidLess l = true.
Proof.
  rewrite <- first_unsorted_increasing. unfold TransformUnmarshal.
  destruct (first_unsorted l) as [[a b]|]; simpl; split;
    try discriminate; reflexivity.
Qed.

Lemma UnmarshalJSON_accepts (dec : list byte -> Error + list Cid)
    (set : SortedCidSet) (b : list byte) (ts : list Cid) :
  dec b = inr ts -> increasing cidLess ts = true ->
  UnmarshalJSON dec set b = (mkSet ts, None).
Proof.
  intros Hdec Hinc. unfold UnmarshalJSON. rewrite Hdec.
  apply first_unsorted_increasing in Hinc. rewrite Hinc. reflexivity.
Qed.

(** ** Iteration visits the slice from front to back *)

Lemma skipn_nth_error (l : list Cid) :
  forall i, i < length l ->
  exists x, nth_error l i = Some x /\ skipn i l = x :: skipn (S i) l.
Proof.
  induction l as [|a l IH]; intros i Hi; simpl in Hi; [lia|].
  destruct i as [|i].
  - exists a. split; reflexivity.
  - destruct (IH i) as [x [Hx Hs]]; [lia|].
    exists x. split; [exact Hx | exact Hs].
Qed.

Lemma iter_loop_spec (l : list Cid) (fuel : nat) :
  forall i out,
    i <= length l -> length l - i <= fuel ->
    iter_loop fuel (mkIter l i) out = out ++ map Some (skipn i l).
Proof.
  induction fuel as [|fuel IH]; intros i out Hi Hf; simpl.
  - assert (i = length l) by lia. subst i.
    rewrite skipn_all. simpl. rewrite app_nil_r. reflexivity.
  - unfold Complete; simpl.
    destruct (Nat.leb_spec (length l) i) as [Hge|Hlt].
    + rewrite skipn_all2 by lia. simpl. rewrite app_nil_r. reflexivity.
    + unfold Next, Value; simpl.
      destruct (Nat.ltb_spec i (length l)) as [_|]; [|lia]. simpl.
      destruct (skipn_nth_error l Hlt) as [x [Hx Hs]].
      unfold at_index. rewrite Hx, Hs.
      replace (i + 1) with (S i) by lia.
      rewrite IH by lia. simpl. rewrite <- app_assoc. reflexivity.
Qed.

Lemma ToSlice_spec (set : SortedCidSet) :
  ToSlice set = map Some (s set).
Proof.
  unfold ToSlice, Iter, Len.
  rewrite iter_loop_spec by lia. reflexivity.
Qed.

(** ** The order of the design document is contained in [cidLess] *)

Lemma cidLexLess_cidLess (a b : Cid) :
  cidLexLess a b = true -> cidLess a b = true.
Proof.
  unfold cidLexLess, cidLess.
  destruct (Version a <? Version b)%N; simpl; [reflexivity|].
  destruct (Version a =? Version b)%N; simpl; [|discriminate].
  destruct (Codec a <? Codec b)%N; simpl; [reflexivity|].
  destruct (Codec a =? Codec b)%N; simpl; [|discriminate].
  intros H; exact H.
Qed.

(** ** The order of the design document is a strict total order *)

Lemma cidLexLess_spec (a b : Cid) :
  cidLexLess a b = true <->
  (Version a < Version b)%N \/
  (Version a = Version b /\
   ((Codec a < Codec b)%N \/
    (Codec a = Codec b /\ (bytes_Compare (Hash a) (Hash b) < 0)%Z))).
Proof.
  unfold cidLexLess.
  rewrite !orb_true_iff, !andb_true_iff, !orb_true_iff, !andb_true_iff.
  rewrite !N.ltb_lt, !N.eqb_eq, Z.ltb_lt. reflexivity.
Qed.

Lemma bytes_Compare_lt_trans (a : list byte) :
  forall b c,
    (bytes_Compare a b < 0)%Z -> (bytes_Compare b c < 0)%Z ->
    (bytes_Compare a c < 0)%Z.
Proof.
  induction a as [|x a IH]; intros [|y b] [|z c]; simpl; try lia.
  destruct (N.compare_spec (Byte.to_N x) (Byte.to_N y));
    destruct (N.compare_spec (Byte.to_N y) (Byte.to_N z));
    destruct (N.compare_spec (Byte.to_N x) (Byte.to_N z));
    try lia; intros; try lia; eauto.
Qed.

Lemma bytes_Compare_refl (a : list byte) : bytes_Compare a a = 0%Z.
Proof.
  induction a as [|x a IH]; simpl; [reflexivity|].
  rewrite N.compare_refl. exact IH.
Qed.

Lemma cidLexLess_irrefl (a : Cid) : cidLexLess a a = false.
Proof.
  apply not_true_iff_false. rewrite cidLexLess_spec, bytes_Compare_refl. lia.
Qed.

Lemma cidLexLess_trans (a b c : Cid) :
  cidLexLess a b = true -> cidLexLess b c = true -> cidLexLess a c = true.
Proof.
  rewrite !cidLexLess_spec.
  intros [Hab|[Hab [Hab'|[Hab' Hab'']]]] [Hbc|[Hbc [Hbc'|[Hbc' Hbc'']]]];
    try (left; lia); right; (split; [lia|]);
    try (left; lia).
  right. split; [lia|]. eapply bytes_Compare_lt_trans; eassumption.
Qed.

(** ** Where [cidLess] does behave like an order *)

Lemma bytes_Compare_antisym (a : list byte) :
  forall b, bytes_Compare b a = (- bytes_Compare a b)%Z.
Proof.
  induction a as [|x a IH]; intros [|y b]; simpl; try reflexivity.
  rewrite (N.compare_antisym (Byte.to_N x) (Byte.to_N y)).
  destruct (N.compare (Byte.to_N x) (Byte.to_N y)); simpl;
    [apply IH | reflexivity | reflexivity].
Qed.

Lemma to_N_inj (x y : byte) : Byte.to_N x = Byte.to_N y -> x = y.
Proof.
  intros Hxy.
  pose proof (Byte.of_to_N x) as Hx. pose proof (Byte.of_to_N y) as Hy.
  rewrite Hxy in Hx. congruence.
Qed.

Lemma bytes_Compare_eq (a : list byte) :
  forall b, bytes_Compare a b = 0%Z <-> a = b.
Proof.
  induction a as [|x a IH]; intros [|y b]; simpl;
    try (split; [discriminate | discriminate]); try (split; reflexivity).
  destruct (N.compare_spec (Byte.to_N x) (Byte.to_N y)) as [Heq|Hlt|Hgt].
  - rewrite IH. apply to_N_inj in Heq. subst y.
    split; [intros ->; reflexivity | intros Hc; inversion Hc; reflexivity].
  - split; [discriminate|]. intros Hc. inversion Hc; subst. lia.
  - split; [discriminate|]. intros Hc. inversion Hc; subst. lia.
Qed.

(** [Equals] on CIDs decides equality of the three fields. *)
Lemma Cid_Equals_eq (a b : Cid) : Cid_Equals a b = true <-> a = b.
Proof.
  unfold Cid_Equals, bytes_Equal. destruct a as [va ca ha], b as [vb cb hb].
  simpl. rewrite !andb_true_iff, !N.eqb_eq, Z.eqb_eq, bytes_Compare_eq.
  split.
  - intros [[-> ->] ->]. reflexivity.
  - intros Heq. inversion Heq. auto.
Qed.

Lemma cidLexLess_total (a b : Cid) :
  a <> b -> cidLexLess a b = true \/ cidLexLess b a = true.
Proof.
  intros Hne. rewrite !cidLexLess_spec.
  destruct (N.lt_trichotomy (Version a) (Version b)) as [Hv|[Hv|Hv]];
    [left; left; exact Hv | | right; left; exact Hv].
  destruct (N.lt_trichotomy (Codec a) (Codec b)) as [Hc|[Hc|Hc]];
    [left; right; split; [exact Hv | left; exact Hc] |
     | right; right; split; [symmetry; exact Hv | left; exact Hc]].
  assert (Hh : bytes_Compare (Hash a) (Hash b) <> 0%Z).
  { intros Hz. apply bytes_Compare_eq in Hz. apply Hne.
    destruct a, b; simpl in *; subst; reflexivity. }
  pose proof (bytes_Compare_antisym (Hash a) (Hash b)) as Hanti.
  destruct (Z.lt_trichotomy (bytes_Compare (Hash a) (Hash b)) 0)
    as [Hlt|[Heq|Hgt]]; [| contradiction |].
  - left. right. split; [exact Hv|]. right. split; [exact Hc | exact Hlt].
  - right. right. split; [symmetry; exact Hv|]. right.
    split; [symmetry; exact Hc | lia].
Qed.

Lemma cidLexLess_asym (a b : Cid) :
  cidLexLess a b = true -> cidLexLess b a = false.
Proof.
  intros Hab. apply not_true_iff_false. intros Hba.
  pose proof (cidLexLess_trans _ _ _ Hab Hba) as Haa.
  rewrite cidLexLess_irrefl in Haa. discriminate.
Qed.

Lemma cidLess_irrefl (a : Cid) : cidLess a a = false.
Proof.
  unfold cidLess. rewrite !N.ltb_irrefl.
  assert (Hz : bytes_Compare (Hash a) (Hash a) = 0%Z)
    by (apply bytes_Compare_eq; reflexivity).
  rewrite Hz. reflexivity.
Qed.

(** Two CIDs that are not equal are related one way or the other (and, as
    [C3_cidLess_relates_both_ways] below shows, sometimes both ways). *)
Lemma cidLess_connected (c id : Cid) :
  cidLess c id = false -> Cid_Equals c id = false -> cidLess id c = true.
Proof.
  unfold cidLess, Cid_Equals, bytes_Equal.
  rewrite (bytes_Compare_antisym (Hash c) (Hash id)).
  destruct (N.ltb_spec (Version c) (Version id)); simpl; [discriminate|].
  destruct (N.ltb_spec (Codec c) (Codec id)); simpl; [discriminate|].
  destruct (Z.ltb_spec (bytes_Compare (Hash c) (Hash id)) 0);
    simpl; [discriminate|]. intros _.
  destruct (N.eqb_spec (Codec c) (Codec id)); simpl.
  - destruct (N.eqb_spec (Version c) (Version id)); simpl.
    + destruct (Z.eqb_spec (bytes_Compare (Hash c) (Hash id)) 0);
        [discriminate|]. intros _.
      destruct (N.ltb_spec (Version id) (Version c)); simpl; [reflexivity|].
      destruct (N.ltb_spec (Codec id) (Codec c)); simpl; [reflexivity|].
      apply Z.ltb_lt. lia.
    + intros _.
      destruct (N.ltb_spec (Version id) (Version c)); simpl;
        [reflexivity | lia].
  - intros _.
    destruct (N.ltb_spec (Version id) (Version c)); simpl; [reflexivity|].
    destruct (N.ltb_spec (Codec id) (Codec c)); simpl; [reflexivity | lia].
Qed.

(** ** [Add] alone keeps adjacent items in [cidLess] *)

Lemma increasing_cons (lt : Cid -> Cid -> bool) (a : Cid) (l : list Cid) :
  increasing lt (a :: l) =
  match l with
  | [] => true
  | b :: _ => lt a b && increasing lt l
  end.
Proof. destruct l; reflexivity. Qed.

Lemma increasing_insert (lt : Cid -> Cid -> bool) (x : Cid) (l : list Cid) :
  forall idx,
    increasing lt l = true ->
    idx <= length l ->
    (idx = 0 \/ exists p, nth_error l (idx - 1) = Some p /\ lt p x = true) ->
    (idx = length l \/ exists q, nth_error l idx = Some q /\ lt x q = true) ->
    increasing lt (firstn idx l ++ x :: skipn idx l) = true.
Proof.
  induction l as [|a l IH]; intros idx Hinc Hidx Hlo Hhi.
  - simpl in Hidx. assert (idx = 0) by lia. subst idx. reflexivity.
  - destruct idx as [|i].
    + cbn [firstn skipn app]. rewrite increasing_cons.
      destruct Hhi as [Hhi|[q [Hq Hlt]]]; [discriminate Hhi|].
      simpl in Hq. inversion Hq; subst q. rewrite Hlt, Hinc. reflexivity.
    + cbn [firstn skipn app]. rewrite increasing_cons.
      rewrite increasing_cons in Hinc.
      assert (Hinc' : increasing lt l = true).
      { destruct l as [|b l']; [reflexivity|].
        apply andb_true_iff in Hinc. apply Hinc. }
      assert (Hrest : increasing lt (firstn i l ++ x :: skipn i l) = true).
      { apply IH.
        - exact Hinc'.
        - simpl in Hidx. lia.
        - destruct i as [|k]; [left; reflexivity|]. right.
          destruct Hlo as [Hlo|[p [Hp Hlt]]]; [discriminate Hlo|].
          exists p. split; [|exact Hlt].
          simpl in Hp. simpl. rewrite Nat.sub_0_r. exact Hp.
        - destruct Hhi as [Hhi|[q [Hq Hlt]]].
          + left. simpl in Hhi. lia.
          + right. exists q. split; [exact Hq | exact Hlt]. }
      destruct i as [|k].
      * cbn [firstn skipn app] in *. rewrite Hrest.
        destruct Hlo as [Hlo|[p [Hp Hlt]]]; [discriminate Hlo|].
        simpl in Hp. inversion Hp; subst p. rewrite Hlt. reflexivity.
      * destruct l as [|b l']; [simpl in Hidx; lia|].
        cbn [firstn app] in *. rewrite Hrest.
        apply andb_true_iff in Hinc. destruct Hinc as [Hab _].
        rewrite Hab. reflexivity.
Qed.

(** What the binary search of [search] guarantees about the index it
    returns, on any slice: the item just before is [cidLess] than [id], the
    item at the index is not. *)
Lemma search_post (set : SortedCidSet) (id : Cid) :
  search set id <= length (s set) /\
  (search set id = 0 \/
   exists p, nth_error (s set) (search set id - 1) = Some p /\
             cidLess p id = true) /\
  (search set id = length (s set) \/
   exists q, nth_error (s set) (search set id) = Some q /\
             cidLess q id = false).
Proof.
  unfold search.
  set (f := fun i => match at_index (s set) i with
                     | Some c => negb (cidLess c id)
                     | None => true
                     end).
  destruct (sort_Search_post f (length (s set))) as [Hle [Hlo Hhi]].
  set (r := sort_Search (length (s set)) f) in *.
  split; [exact Hle|]. split.
  - destruct Hlo as [H0|Hf]; [left; exact H0|].
    destruct (Nat.eq_dec r 0) as [E|NE]; [left; exact E | right].
    unfold f, at_index in Hf.
    destruct (nth_error (s set) (r - 1)) as [p|] eqn:Hp; [|discriminate Hf].
    exists p. split; [reflexivity|].
    apply negb_false_iff. exact Hf.
  - destruct Hhi as [Hn|Hf]; [left; exact Hn|].
    destruct (Nat.eq_dec r (length (s set))) as [E|NE];
      [left; exact E | right].
    assert (Hlt : r < length (s set)) by lia.
    apply nth_error_Some in Hlt.
    unfold f, at_index in Hf.
    destruct (nth_error (s set) r) as [q|] eqn:Hq; [|contradiction].
    exists q. split; [reflexivity|].
    apply negb_true_iff. exact Hf.
Qed.

(** [Add] keeps every adjacent pair of the slice in [cidLess]. *)
Lemma Add_keeps_adjacent_pairs (set : SortedCidSet) (id : Cid) :
  increasing cidLess (s set) = true ->
  increasing cidLess (s (fst (Add set id))) = true.
Proof.
  intros Hinc. unfold Add.
  destruct (found_at set (search set id) id) eqn:Hfound; [exact Hinc|].
  cbn [fst s].
  destruct (search_post set id) as [Hle [Hlo Hhi]].
  apply increasing_insert; try assumption.
  destruct Hhi as [Hn|[q [Hq Hnl]]]; [left; exact Hn | right].
  exists q. split; [exact Hq|].
  apply cidLess_connected; [exact Hnl|].
  unfold found_at, at_index in Hfound. rewrite Hq in Hfound.
  assert (Hlt : search set id < length (s set))
    by (apply nth_error_Some; rewrite Hq; discriminate).
  apply Nat.ltb_lt in Hlt. rewrite Hlt in Hfound. exact Hfound.
Qed.

(** The two halves of [Add] as [Has] sees them: a hit changes nothing and
    returns false; a miss returns true and stores the item. *)
Lemma Add_when_Has (set : SortedCidSet) (id : Cid) :
  Has set id = true -> Add set id = (set, false).
Proof. unfold Has, Add. intros ->. reflexivity. Qed.

Lemma Add_when_not_Has (set : SortedCidSet) (id : Cid) :
  Has set id = false ->
  snd (Add set id) = true /\ In id (s (fst (Add set id))).
Proof.
  unfold Has, Add. intros ->. split; [reflexivity|].
  cbn [fst s]. apply in_or_app. right. left. reflexivity.
Qed.

(** ** The properties of the design document, at the code *)

Ltac split_all := repeat match goal with |- _ /\ _ => split end.
Ltac run := vm_compute; reflexivity.

(** C1. The design document has [Equals] hold exactly when the two sets have
    the same length and the same CID at every position.  The code compares
    position 0 only: the sets built from [cidA; cidB] and from [cidA; cidB'],
    both in ascending order, have the same length, differ at position 1, and
    [Equals] returns true on them. *)
Theorem C1_Equals_looks_at_position_0_only :
  s setAB = [cidA; cidB] /\
  s setAB' = [cidA; cidB'] /\
  increasing cidLexLess (s setAB) = true /\
  increasing cidLexLess (s setAB') = true /\
  Len setAB = Len setAB' /\
  ptr_Equals (at_index (s setAB) 1) (at_index (s setAB') 1) = false /\
  Equals setAB setAB' = true.
Proof. split_all; run. Qed.

(** C3. The design document has [cidLess] be the strict total order given
    by the lexicographic order on (version, codec, hash bytes).  The code
    takes the disjunction of the three comparisons: [cidA] and [cidB] are
    distinct, each is [cidLess] than the other, so the relation is neither
    asymmetric nor transitive ([cidA] is not below itself), and it relates
    [cidB] to [cidA] although the triple of [cidA] comes first. *)
Theorem C3_cidLess_relates_both_ways :
  cidA <> cidB /\
  cidLess cidA cidB = true /\
  cidLess cidB cidA = true /\
  cidLess cidA cidA = false /\
  cidLexLess cidA cidB = true /\
  cidLexLess cidB cidA = false.
Proof. split_all; try run. discriminate. Qed.

(** C5. The design document has decoding fail exactly on lists that are not
    strictly increasing (so on every list with a duplicate) and has every
    set survive a round trip.  At the code, the CBOR transform and
    [UnmarshalJSON] accept the list [cidA; cidB; cidA], which repeats [cidA]
    and is not increasing in the triple order; and the set reached by
    [NewSortedCidSet] on that list followed by [Remove cidB] marshals to
    [cidA; cidA], which the transform rejects. *)
Theorem C5_decoders_accept_a_duplicate_and_round_trip_fails :
  increasing cidLexLess [cidA; cidB; cidA] = false /\
  TransformUnmarshal [cidA; cidB; cidA] = (mkSet [cidA; cidB; cidA], None) /\
  UnmarshalJSON exampleUnmarshal (mkSet [])
    [x55; x01; x70; x00; x55; x01]
    = (mkSet [cidA; cidB; cidA], None) /\
  Remove setABA cidB = (mkSet [cidA; cidA], true) /\
  TransformMarshal (mkSet [cidA; cidA]) = ([cidA; cidA], None) /\
  TransformUnmarshal [cidA; cidA]
    = (mkSet [], Some (ErrInvalidSerialization cidA cidA)).
Proof. split_all; run. Qed.

(** C6. The design document has every mutation keep the slice strictly
    increasing, so that iteration is in strict ascending order.  At the
    code, [setAB] is increasing (in the triple order and in [cidLess]) and
    [Add cidA] turns it into [cidA; cidB; cidA], which iteration yields in
    that order and which is not increasing in the triple order; and
    [Remove cidB] on that slice, whose adjacent pairs are all in [cidLess],
    leaves [cidA; cidA], whose pair is not. *)
Theorem C6_Add_and_Remove_leave_an_unsorted_slice :
  increasing cidLexLess (s setAB) = true /\
  increasing cidLess (s setAB) = true /\
  Add setAB cidA = (mkSet [cidA; cidB; cidA], true) /\
  increasing cidLexLess [cidA; cidB; cidA] = false /\
  ToSlice setABA = [Some cidA; Some cidB; Some cidA] /\
  increasing cidLess [cidA; cidB; cidA] = true /\
  Remove (mkSet [cidA; cidB; cidA]) cidB = (mkSet [cidA; cidA], true) /\
  increasing cidLess [cidA; cidA] = false.
Proof. split_all; run. Qed.

(** C7. The design document has [Add] of a member return false and change
    nothing, and [Add] of a non-member return true and make [Has] hold.  At
    the code, [cidA] is in the slice of [setAB], yet [Has] misses it and
    [Add] returns true and stores it a second time; and [cidB'] is not in
    [setFive], whose slice is in ascending order, [Add] returns true and
    puts it last, and [Has] still misses it afterwards. *)
Theorem C7_Add_stores_a_member_again :
  In cidA (s setAB) /\
  Has setAB cidA = false /\
  Add setAB cidA = (mkSet [cidA; cidB; cidA], true) /\
  s setFive = [cidRaw0; cidA; cidRaw2; cidPb2; cidCbor0] /\
  increasing cidLexLess (s setFive) = true /\
  ~ In cidB' (s setFive) /\
  Has setFive cidB' = false /\
  Add setFive cidB' =
    (mkSet [cidRaw0; cidA; cidRaw2; cidPb2; cidCbor0; cidB'], true) /\
  Has (fst (Add setFive cidB')) cidB' = false.
Proof.
  split_all; try run.
  - left. reflexivity.
  - vm_compute. intros H.
    repeat (destruct H as [H|H]; [discriminate H|]). exact H.
Qed.

End SortedCidSetFacts.

(** * Properties of the chain-state facade *)

Module FacadeFacts.

Import Cst.

Section Generic.

Context {S B : Type} `{chainReadWriter S} `{Blockstore B} `{Decoder}.

(** ** Results and traces of sequenced computations *)

Lemma result_bind {X Y : Type} (m : M X) (f : X -> M Y) :
  result (bind m f) =
  match result m with
  | None => None
  | Some a => result (f a)
  end.
Proof.
  destruct m as [t [a|]]; simpl; [|reflexivity].
  destruct (f a) as [t' b]. reflexivity.
Qed.

Lemma trace_bind {X Y : Type} (m : M X) (f : X -> M Y) :
  trace (bind m f) =
  match result m with
  | None => trace m
  | Some a => trace m ++ trace (f a)
  end.
Proof.
  destruct m as [t [a|]]; simpl; [|reflexivity].
  destruct (f a) as [t' b]. reflexivity.
Qed.

Lemma bind_call {X Y : Type} (ev : Event) (v : X) (f : X -> M Y) :
  bind (call ev v) f = (ev :: trace (f v), result (f v)).
Proof.
  unfold bind, call. destruct (f v) as [t' b]. reflexivity.
Qed.

(** ** [ResolveAddressAt] *)

(** When the tree has no init actor, the error handed to [errors.Wrapf] is
    the nil error of the lookup, and the call returns the undefined address
    with a nil error. *)
Lemma ResolveAddressAt_no_init_actor (chn : ChainStateReadWriter S B)
    (tipKey : TipSetKey) (addr : Address) (st : Tree) (actr : option Actor) :
  GetTipSetState (readWriter chn) tipKey = inr st ->
  Tree_GetActor st InitActorAddr = (actr, false, None) ->
  ResolveAddressAt chn tipKey addr =
  ([CallGetTipSetState tipKey; CallTreeGetActor InitActorAddr],
   Some (Undef, None)).
Proof.
  intros Hst Hinit. unfold ResolveAddressAt.
  rewrite bind_call, Hst, bind_call, Hinit. reflexivity.
Qed.

(** When the registry actor and its state load, the call is the registry
    state's [ResolveAddress], made after four collaborator calls. *)
Lemma ResolveAddressAt_loaded (chn : ChainStateReadWriter S B)
    (tipKey : TipSetKey) (addr : Address) (st : Tree) (init : Actor)
    (blk : Block) (state : InitState) :
  GetTipSetState (readWriter chn) tipKey = inr st ->
  Tree_GetActor st InitActorAddr = (Some init, true, None) ->
  bs_Get (bstore chn) (Head_Cid init) = inr blk ->
  encoding_Decode (RawData blk) = inr state ->
  ResolveAddressAt chn tipKey addr =
  ([CallGetTipSetState tipKey; CallTreeGetActor InitActorAddr;
    CallBstoreGet (Head_Cid init); CallDecode (RawData blk);
    CallResolveAddress addr],
   Some (ResolveAddress state addr)).
Proof.
  intros Hst Hinit Hblk Hdec. unfold ResolveAddressAt.
  rewrite bind_call, Hst, bind_call, Hinit. cbn [negb].
  rewrite bind_call, Hblk, bind_call, Hdec. reflexivity.
Qed.

(** Every run of [ResolveAddressAt] starts by loading the tipset's state,
    whatever the address. *)
Lemma ResolveAddressAt_loads_state_first (chn : ChainStateReadWriter S B)
    (tipKey : TipSetKey) (addr : Address) :
  exists rest,
    trace (ResolveAddressAt chn tipKey addr) = CallGetTipSetState tipKey :: rest.
Proof.
  unfold ResolveAddressAt. rewrite bind_call. eexists. reflexivity.
Qed.

(** ** [ChainImport] and [SetHead] *)

Lemma ChainImport_readWriter (chain_Import : list byte -> carProgram)
    (chn : ChainStateReadWriter S B) (input : list byte) :
  readWriter (fst (ChainImport chain_Import chn input)) = readWriter chn.
Proof.
  unfold ChainImport.
  destruct (run_car (chain_Import input) (bstore chn)) as [store' [key [e|]]];
    reflexivity.
Qed.

(** A failed [SetHead] lookup leaves the facade as it was. *)
Lemma SetHead_unknown_key (chn : ChainStateReadWriter S B) (key : TipSetKey)
    (err : Error) :
  GetTipSet (readWriter chn) key = inl err ->
  SetHead chn key = (chn, Some err).
Proof.
  intros Hk. unfold SetHead. rewrite Hk. reflexivity.
Qed.

(** ** The properties of the design document, at the code *)

(** C4 (amended). For every tipset key and every address already in
    identifier form: if the state tree of the key loads and holds the
    registry (init) actor, and that actor's head state is in the block store
    and decodes, then [ResolveAddressAt] returns the address unchanged with
    a nil error; it does so after looking up the registry actor, fetching
    its head state and decoding it, the identity step being the registry
    state's own [ResolveAddress]. *)
Theorem C4_identifier_resolves_to_itself_after_registry_load
    (chn : ChainStateReadWriter S B) (tipKey : TipSetKey) (addr : Address)
    (st : Tree) (init : Actor) (blk : Block) (state : InitState) :
  is_ID addr = true ->
  GetTipSetState (readWriter chn) tipKey = inr st ->
  Tree_GetActor st InitActorAddr = (Some init, true, None) ->
  bs_Get (bstore chn) (Head_Cid init) = inr blk ->
  encoding_Decode (RawData blk) = inr state ->
  result (ResolveAddressAt chn tipKey addr) = Some (addr, None) /\
  trace (ResolveAddressAt chn tipKey addr) =
    [CallGetTipSetState tipKey; CallTreeGetActor InitActorAddr;
     CallBstoreGet (Head_Cid init); CallDecode (RawData blk);
     CallResolveAddress addr] /\
  consults_registry (trace (ResolveAddressAt chn tipKey addr)) = true.
Proof.
  intros Hid Hst Hinit Hblk Hdec.
  rewrite (ResolveAddressAt_loaded chn tipKey addr Hst Hinit Hblk Hdec).
  unfold ResolveAddress. rewrite Hid.
  repeat apply conj; reflexivity.
Qed.

(** C8. [ChainImport] does not change the current head: whatever the input
    stream and whatever [chain.Import] does with the [carStore] it is given,
    [Head] after the call, which may have succeeded or failed, returns the
    key it returned before; the chain store is not touched at all. *)
Theorem C8_ChainImport_keeps_the_head
    (chain_Import : list byte -> carProgram)
    (chn : ChainStateReadWriter S B) (input : list byte) :
  Head (fst (ChainImport chain_Import chn input)) = Head chn /\
  readWriter (fst (ChainImport chain_Import chn input)) = readWriter chn.
Proof.
  unfold Head. rewrite ChainImport_readWriter. split; reflexivity.
Qed.

(** C9. For every tipset key and address: when [ResolveAddressAt] succeeds
    with some identifier and the tipset's state tree has no actor record for
    it, [GetActorAt] returns no actor and the error [ErrNotFound]. *)
Theorem C9_GetActorAt_missing_actor_is_ErrNotFound
    (chn : ChainStateReadWriter S B) (tipKey : TipSetKey) (addr : Address)
    (st : Tree) (idAddr : Address) (actr : option Actor) :
  GetTipSetState (readWriter chn) tipKey = inr st ->
  result (ResolveAddressAt chn tipKey addr) = Some (idAddr, None) ->
  Tree_GetActor st idAddr = (actr, false, None) ->
  result (GetActorAt chn tipKey addr) = Some (None, Some ErrNotFound).
Proof.
  intros Hst Hres Hact. unfold GetActorAt.
  rewrite bind_call, Hst. cbn [result snd].
  rewrite result_bind, Hres, bind_call, Hact. reflexivity.
Qed.

(** C10. [GetActorSignature] returns [ErrNoMethod] for the reserved
    value-transfer method without any collaborator call (so without looking
    up the actor); for another method, when the actor is found and has no
    code it returns [ErrNoActorImpl]; and when the actor has code whose
    implementation loads but does not export the method, it returns the
    missing-export error for that method. *)
Theorem C10_GetActorSignature_failures
    (chn : ChainStateReadWriter S B) (actorAddr : Address)
    (method : MethodNum) :
  (method = MethodSend ->
   GetActorSignature chn actorAddr method = ([], Some (None, Some ErrNoMethod)))
  /\
  (forall actor : Actor,
     method <> MethodSend ->
     result (GetActor chn actorAddr) = Some (Some actor, None) ->
     Actor_Empty actor = true ->
     result (GetActorSignature chn actorAddr method)
       = Some (None, Some ErrNoActorImpl))
  /\
  (forall (actor : Actor) (executable : Executable) (e : Error),
     method <> MethodSend ->
     result (GetActor chn actorAddr) = Some (Some actor, None) ->
     Actor_Empty actor = false ->
     GetActorImpl (actors chn) (Code_Cid actor) = inr executable ->
     Signature executable method = inl e ->
     result (GetActorSignature chn actorAddr method)
       = Some (None, Some (ErrMissingExport method))).
Proof.
  repeat apply conj.
  - intros ->. reflexivity.
  - intros actor Hm Hget Hempty. unfold GetActorSignature.
    apply N.eqb_neq in Hm. rewrite Hm.
    rewrite result_bind, Hget, Hempty. reflexivity.
  - intros actor executable e Hm Hget Hempty Himpl Hsig.
    unfold GetActorSignature.
    apply N.eqb_neq in Hm. rewrite Hm.
    rewrite result_bind, Hget, Hempty, bind_call, Himpl, bind_call, Hsig.
    reflexivity.
Qed.

End Generic.

(** C2 (the code at a failing input). The design document has
    [ResolveAddressAt] fail with a non-nil error when the state tree holds
    no registry actor.  At the code, on the tipset [key1], whose tree has no
    actor at [InitActorAddr], the call looks the actor up and returns the
    undefined address with a nil error. *)
Theorem C2_missing_registry_actor_returns_nil_error :
  Tree_GetActor treeNoInit InitActorAddr = (None, false, None) /\
  GetTipSetState (readWriter exampleChn) key1 = inr treeNoInit /\
  ResolveAddressAt exampleChn key1 (BLS [x0a]) =
    ([CallGetTipSetState key1; CallTreeGetActor InitActorAddr],
     Some (Undef, None)).
Proof. repeat apply conj; reflexivity. Qed.

(** C4 (counterexample). At the tipset [key0] the identifier address 5 comes
    back unchanged, but only after the registry actor was looked up and its
    state fetched and decoded; and at a key the chain store does not know,
    the identifier address does not come back at all. *)
Lemma C4_counterexample :
  ~ (result (ResolveAddressAt exampleChn key0 (IDAddress 5))
       = Some (IDAddress 5, None) /\
     consults_registry (trace (ResolveAddressAt exampleChn key0 (IDAddress 5)))
       = false) /\
  ~ (result (ResolveAddressAt exampleChn [] (IDAddress 5))
       = Some (IDAddress 5, None) /\
     consults_registry (trace (ResolveAddressAt exampleChn [] (IDAddress 5)))
       = false).
Proof.
  split; intros [H1 H2]; vm_compute in H1, H2; discriminate.
Qed.

Lemma C4_witness :
  is_ID (IDAddress 5) = true /\
  result (ResolveAddressAt exampleChn key0 (IDAddress 5))
    = Some (IDAddress 5, None) /\
  consults_registry (trace (ResolveAddressAt exampleChn key0 (IDAddress 5)))
    = true.
Proof.
  split; [reflexivity|].
  assert (Hw : result (ResolveAddressAt exampleChn key0 (IDAddress 5))
                 = Some (IDAddress 5, None) /\
               trace (ResolveAddressAt exampleChn key0 (IDAddress 5)) =
                 [CallGetTipSetState key0; CallTreeGetActor InitActorAddr;
                  CallBstoreGet (Head_Cid initActor);
                  CallDecode (RawData (mkBlock initHead [x01]));
                  CallResolveAddress (IDAddress 5)] /\
               consults_registry
                 (trace (ResolveAddressAt exampleChn key0 (IDAddress 5)))
                 = true).
  { apply (C4_identifier_resolves_to_itself_after_registry_load
             exampleChn key0 (IDAddress 5) (st := exampleTree)
             (init := initActor) (blk := mkBlock initHead [x01])
             (state := exampleInitState)); reflexivity. }
  destruct Hw as [Hr [_ Hc]].
  split; [exact Hr | exact Hc].
Defined.

Lemma C9_witness :
  result (ResolveAddressAt exampleChn key0 (SECP256K1 [x0c]))
    = Some (IDAddress 200, None) /\
  Tree_GetActor exampleTree (IDAddress 200) = (None, false, None) /\
  result (GetActorAt exampleChn key0 (SECP256K1 [x0c]))
    = Some (None, Some ErrNotFound).
Proof.
  split; [reflexivity|]. split; [reflexivity|].
  apply (C9_GetActorAt_missing_actor_is_ErrNotFound
           exampleChn key0 (SECP256K1 [x0c]) (st := exampleTree)
           (idAddr := IDAddress 200) (actr := None));
    reflexivity.
Defined.

Lemma C10_witness :
  GetActorSignature exampleChn (BLS [x0a]) MethodSend
    = ([], Some (None, Some ErrNoMethod)) /\
  result (GetActorSignature exampleChn (BLS [x0b]) 1%N)
    = Some (None, Some ErrNoActorImpl) /\
  result (GetActorSignature exampleChn (BLS [x0a]) 7%N)
    = Some (None, Some (ErrMissingExport 7%N)).
Proof.
  repeat apply conj.
  - apply (proj1 (C10_GetActorSignature_failures
                    exampleChn (BLS [x0a]) MethodSend)).
    reflexivity.
  - apply (proj1 (proj2 (C10_GetActorSignature_failures
                           exampleChn (BLS [x0b]) 1%N)) emptyActor).
    + discriminate.
    + reflexivity.
    + reflexivity.
  - apply (proj2 (proj2 (C10_GetActorSignature_failures
                           exampleChn (BLS [x0a]) 7%N))
             accountActor accountExecutable (ErrExternal "no such method")).
    + discriminate.
    + reflexivity.
    + reflexivity.
    + reflexivity.
    + reflexivity.
Defined.

(** On the small node, [SetHead] moves the head and [ChainImport] fills the
    block store. *)
Lemma SetHead_example :
  Head exampleChn = key0 /\
  SetHead exampleChn key1 =
    (mkChn (mkStore key1 (cs_tipsets exampleStore))
           (bstore exampleChn) (actors exampleChn), None) /\
  Head (fst (SetHead exampleChn key1)) = key1.
Proof. repeat apply conj; reflexivity. Qed.

Lemma ChainImport_example :
  bstore (fst (ChainImport exampleImport exampleChn [x05; x06])) =
    [mkBlock (Types.mkCid 1 113 [x06]) [x06];
     mkBlock (Types.mkCid 1 113 [x05]) [x05];
     mkBlock initHead [x01]] /\
  snd (ChainImport exampleImport exampleChn [x05; x06]) =
    ([Types.mkCid 1 113 [x05]], None) /\
  snd (ChainImport exampleImport exampleChn []) =
    (UndefTipSetKey, Some (ErrExternal "corrupt archive")).
Proof. repeat apply conj; reflexivity. Qed.

End FacadeFacts.

(** * Further properties of the ordered CID set *)

Module SortedCidSetMore.

Import Types.
Import SortedCidSetFacts.

(** ** Sorted lists under the triple order *)

Lemma increasing_tail (lt : Cid -> Cid -> bool) (a : Cid) (l : list Cid) :
  increasing lt (a :: l) = true -> increasing lt l = true.
Proof.
  rewrite increasing_cons. destruct l as [|b l]; [reflexivity|].
  intros H. apply andb_true_iff in H. apply H.
Qed.

Lemma lex_head_bound (l : list Cid) :
  forall a, increasing cidLexLess (a :: l) = true ->
  forall y, In y l -> cidLexLess a y = true.
Proof.
  induction l as [|b l IH]; intros a Hinc y Hy; [destruct Hy|].
  rewrite increasing_cons in Hinc. apply andb_true_iff in Hinc.
  destruct Hinc as [Hab Hbl].
  destruct Hy as [<-|Hy]; [exact Hab|].
  apply (@cidLexLess_trans a b y); [exact Hab|].
  apply IH; assumption.
Qed.

(** In a sorted list, an earlier item is below a later one. *)
Lemma lex_pairs (l : list Cid) :
  increasing cidLexLess l = true ->
  forall i j x y,
    i < j -> nth_error l i = Some x -> nth_error l j = Some y ->
    cidLexLess x y = true.
Proof.
  induction l as [|a l IH]; intros Hinc i j x y Hij Hx Hy.
  - destruct i; discriminate Hx.
  - destruct j as [|j]; [lia|]. simpl in Hy.
    destruct i as [|i].
    + simpl in Hx. inversion Hx; subst x.
      apply (@lex_head_bound l a Hinc). eapply nth_error_In; eassumption.
    + simpl in Hx. apply (IH (@increasing_tail _ a l Hinc) i j); auto; lia.
Qed.

Lemma lex_remove (l1 : list Cid) :
  forall x l2,
    increasing cidLexLess (l1 ++ x :: l2) = true ->
    increasing cidLexLess (l1 ++ l2) = true.
Proof.
  induction l1 as [|a l1 IH]; intros x l2 Hinc.
  - simpl in *. exact (@increasing_tail _ x l2 Hinc).
  - pose proof (IH x l2 (@increasing_tail _ a (l1 ++ x :: l2) Hinc)) as Hrest.
    change ((a :: l1) ++ l2) with (a :: (l1 ++ l2)).
    rewrite increasing_cons.
    destruct (l1 ++ l2) as [|b r] eqn:Hr; [reflexivity|].
    rewrite Hrest, andb_true_r.
    apply (@lex_head_bound (l1 ++ x :: l2) a Hinc).
    assert (Hb : In b (l1 ++ l2)) by (rewrite Hr; left; reflexivity).
    apply in_app_or in Hb. apply in_or_app.
    destruct Hb as [Hb|Hb]; [left; exact Hb | right; right; exact Hb].
Qed.

(** Two sorted lists with the same items are the same list. *)
Lemma lex_sorted_unique (l1 : list Cid) :
  forall l2,
    increasing cidLexLess l1 = true -> increasing cidLexLess l2 = true ->
    (forall x, In x l1 <-> In x l2) -> l1 = l2.
Proof.
  induction l1 as [|a t1 IH]; intros l2 H1 H2 Hsame.
  - destruct l2 as [|b t2]; [reflexivity|].
    destruct (proj2 (Hsame b)); left; reflexivity.
  - destruct l2 as [|b t2].
    + destruct (proj1 (Hsame a)); left; reflexivity.
    + assert (Hab : a = b).
      { destruct (proj1 (Hsame a) (or_introl eq_refl)) as [Hb|Ha];
          [symmetry; exact Hb|].
        destruct (proj2 (Hsame b) (or_introl eq_refl)) as [Hb|Hb];
          [exact Hb|].
        pose proof (@lex_head_bound t2 b H2 a Ha) as Hba.
        pose proof (@lex_head_bound t1 a H1 b Hb) as Hab.
        rewrite (@cidLexLess_asym a b Hab) in Hba. discriminate. }
      subst b. f_equal.
      apply IH;
        [exact (@increasing_tail _ a t1 H1) | exact (@increasing_tail _ a t2 H2)|].
      intros x. split; intros Hx.
      * destruct (proj1 (Hsame x) (or_intror Hx)) as [Hxa|Hx2]; [|exact Hx2].
        subst x. pose proof (@lex_head_bound t1 a H1 a Hx) as Haa.
        rewrite cidLexLess_irrefl in Haa. discriminate.
      * destruct (proj2 (Hsame x) (or_intror Hx)) as [Hxa|Hx1]; [|exact Hx1].
        subst x. pose proof (@lex_head_bound t2 a H2 a Hx) as Haa.
        rewrite cidLexLess_irrefl in Haa. discriminate.
Qed.

(** ** CIDs of one kind: [cidLess] is the triple order *)

Lemma cidLess_same_prefix (v c : N) (a b : Cid) :
  same_prefix v c a = true -> same_prefix v c b = true ->
  cidLess a b = cidLexLess a b.
Proof.
  unfold same_prefix, cidLess, cidLexLess.
  rewrite !andb_true_iff, !N.eqb_eq.
  intros [-> ->] [-> ->].
  rewrite !N.ltb_irrefl, !N.eqb_refl. reflexivity.
Qed.

Lemma all_prefix_In (v c : N) (l : list Cid) :
  all_prefix v c l = true <-> forall x, In x l -> same_prefix v c x = true.
Proof. unfold all_prefix. apply forallb_forall. Qed.

Lemma increasing_same_prefix (v c : N) (l : list Cid) :
  all_prefix v c l = true ->
  increasing cidLess l = increasing cidLexLess l.
Proof.
  induction l as [|a l IH]; intros Hall; [reflexivity|].
  rewrite !increasing_cons. destruct l as [|b l]; [reflexivity|].
  simpl in Hall. apply andb_true_iff in Hall. destruct Hall as [Ha Hall].
  pose proof Hall as Hall'. simpl in Hall'.
  apply andb_true_iff in Hall'. destruct Hall' as [Hb _].
  rewrite (@cidLess_same_prefix v c a b Ha Hb), (IH Hall). reflexivity.
Qed.

Lemma lex_NoDup (l : list Cid) :
  increasing cidLexLess l = true -> NoDup l.
Proof.
  induction l as [|a l IH]; intros Hinc; constructor.
  - intros Hin. pose proof (@lex_head_bound l a Hinc a Hin) as Haa.
    rewrite cidLexLess_irrefl in Haa. discriminate.
  - apply IH. exact (@increasing_tail _ a l Hinc).
Qed.

(** ** The guard of [Add], [Has] and [Remove] *)

Lemma found_at_true_iff (set : SortedCidSet) (idx : nat) (id : Cid) :
  found_at set idx id = true <-> nth_error (s set) idx = Some id.
Proof.
  unfold found_at, at_index. split.
  - intros H. apply andb_true_iff in H. destruct H as [_ H].
    destruct (nth_error (s set) idx) as [c|]; [|discriminate].
    apply Cid_Equals_eq in H. subst c. reflexivity.
  - intros H. rewrite H.
    assert (Hlt : idx < length (s set))
      by (apply nth_error_Some; rewrite H; discriminate).
    apply Nat.ltb_lt in Hlt. rewrite Hlt. simpl.
    apply Cid_Equals_eq. reflexivity.
Qed.

Lemma search_le (set : SortedCidSet) (id : Cid) :
  search set id <= length (s set).
Proof. apply search_post. Qed.

(** A hit of [Has] is an item of the slice, on any slice. *)
Lemma Has_In (set : SortedCidSet) (id : Cid) :
  Has set id = true -> In id (s set).
Proof.
  unfold Has. rewrite found_at_true_iff. apply nth_error_In.
Qed.

(** On a sorted slice of one kind the binary search finds every item. *)
Lemma In_Has (v c : N) (set : SortedCidSet) (id : Cid) :
  all_prefix v c (s set) = true -> same_prefix v c id = true ->
  increasing cidLess (s set) = true ->
  In id (s set) -> Has set id = true.
Proof.
  intros Hall Hid Hinc Hin.
  rewrite (@increasing_same_prefix v c (s set) Hall) in Hinc.
  destruct (In_nth_error _ _ Hin) as [k Hk].
  destruct (search_post set id) as [Hle [Hlo Hhi]].
  unfold Has. apply found_at_true_iff.
  assert (Hkeq : k = search set id); [|rewrite <- Hkeq; exact Hk].
  destruct (Nat.lt_trichotomy k (search set id)) as [Hlt|[Heq|Hgt]];
    [exfalso | exact Heq | exfalso].
  - destruct Hlo as [H0|[p [Hp Hpl]]]; [lia|].
    assert (Hps : same_prefix v c p = true).
    { apply (proj1 (all_prefix_In v c (s set)) Hall).
      eapply nth_error_In; eassumption. }
    rewrite (@cidLess_same_prefix v c p id Hps Hid) in Hpl.
    destruct (Nat.eq_dec k (search set id - 1)) as [E|NE].
    + subst k. rewrite Hp in Hk. inversion Hk; subst p.
      rewrite cidLexLess_irrefl in Hpl. discriminate.
    + assert (Hip : cidLexLess id p = true)
        by (apply (@lex_pairs (s set) Hinc k (search set id - 1)); auto; lia).
      pose proof (@cidLexLess_trans id p id Hip Hpl) as Hii.
      rewrite cidLexLess_irrefl in Hii. discriminate.
  - assert (Hkn : k < length (s set))
      by (apply nth_error_Some; rewrite Hk; discriminate).
    destruct Hhi as [Hn|[q [Hq Hql]]]; [lia|].
    assert (Hqs : same_prefix v c q = true).
    { apply (proj1 (all_prefix_In v c (s set)) Hall).
      eapply nth_error_In; eassumption. }
    rewrite (@cidLess_same_prefix v c q id Hqs Hid) in Hql.
    assert (Hqi : cidLexLess q id = true)
      by (apply (@lex_pairs (s set) Hinc (search set id) k); auto).
    rewrite Hqi in Hql. discriminate.
Qed.

(** ** What [Add] and [Remove] do to the slice *)

Lemma Add_miss (set : SortedCidSet) (id : Cid) :
  Has set id = false ->
  Add set id =
  (mkSet (firstn (search set id) (s set) ++ id :: skipn (search set id) (s set)),
   true).
Proof. unfold Has, Add. intros ->. reflexivity. Qed.

Lemma Add_In (set : SortedCidSet) (id x : Cid) :
  Has set id = false ->
  (In x (s (fst (Add set id))) <-> x = id \/ In x (s set)).
Proof.
  intros Hmiss. rewrite (Add_miss set id Hmiss). cbn [fst s].
  rewrite <- (firstn_skipn (search set id) (s set)) at 3.
  rewrite !in_app_iff. simpl. intuition auto.
Qed.

Lemma Remove_miss (set : SortedCidSet) (id : Cid) :
  Has set id = false -> Remove set id = (set, false).
Proof. unfold Has, Remove. intros ->. reflexivity. Qed.

Lemma Remove_hit (set : SortedCidSet) (id : Cid) :
  Has set id = true ->
  exists l1 l2,
    s set = l1 ++ id :: l2 /\ length l1 = search set id /\
    Remove set id = (mkSet (l1 ++ l2), true).
Proof.
  intros Hhit. unfold Remove. unfold Has in Hhit. rewrite Hhit.
  apply found_at_true_iff in Hhit.
  assert (Hlt : search set id < length (s set))
    by (apply nth_error_Some; rewrite Hhit; discriminate).
  destruct (@skipn_nth_error (s set) (search set id) Hlt) as [x [Hx Hs]].
  rewrite Hhit in Hx. inversion Hx; subst x.
  exists (firstn (search set id) (s set)), (skipn (S (search set id)) (s set)).
  split; [|split].
  - rewrite <- Hs. symmetry. apply firstn_skipn.
  - apply firstn_length_le. lia.
  - rewrite Nat.add_1_r. reflexivity.
Qed.

Lemma first_unsorted_Some (l : list Cid) :
  forall a b,
    first_unsorted l = Some (a, b) ->
    exists l1 l2,
      l = l1 ++ a :: b :: l2 /\ cidLess a b = false /\
      increasing cidLess (l1 ++ [a]) = true.
Proof.
  induction l as [|x [|y t] IH]; intros a b Hf; try discriminate Hf.
  cbn [first_unsorted] in Hf.
  destruct (cidLess x y) eqn:Hxy; cbn [negb] in Hf.
  - destruct (IH a b Hf) as [l1 [l2 [Hl [Hab Hinc]]]].
    exists (x :: l1), l2. split; [|split].
    + simpl. rewrite Hl. reflexivity.
    + exact Hab.
    + change ((x :: l1) ++ [a]) with (x :: (l1 ++ [a])).
      rewrite increasing_cons.
      destruct l1 as [|z l1]; simpl in Hl; inversion Hl; subst.
      * simpl. rewrite Hxy. reflexivity.
      * cbn [app] in *. rewrite Hxy, Hinc. reflexivity.
  - inversion Hf; subst. exists [], t. split; [|split]; auto.
Qed.

Lemma NewSortedCidSet_snoc (ids : list Cid) (id : Cid) :
  NewSortedCidSet (ids ++ [id]) = fst (Add (NewSortedCidSet ids) id).
Proof. unfold NewSortedCidSet. rewrite fold_left_app. reflexivity. Qed.

Lemma NewSortedCidSet_adjacent (ids : list Cid) :
  increasing cidLess (s (NewSortedCidSet ids)) = true.
Proof.
  induction ids as [|id ids IH] using rev_ind; [reflexivity|].
  rewrite NewSortedCidSet_snoc. apply Add_keeps_adjacent_pairs. exact IH.
Qed.

Lemma Has_iff_In (v c : N) (set : SortedCidSet) (id : Cid) :
  all_prefix v c (s set) = true -> same_prefix v c id = true ->
  increasing cidLess (s set) = true ->
  (Has set id = true <-> In id (s set)).
Proof.
  intros Hall Hid Hinc. split; [apply Has_In | apply (@In_Has v c); assumption].
Qed.

Lemma Add_all_prefix (v c : N) (set : SortedCidSet) (id : Cid) :
  all_prefix v c (s set) = true -> same_prefix v c id = true ->
  all_prefix v c (s (fst (Add set id))) = true.
Proof.
  intros Hall Hid. destruct (Has set id) eqn:Hh.
  - rewrite (Add_when_Has set id Hh). exact Hall.
  - apply all_prefix_In. intros x Hx. apply (Add_In set id x Hh) in Hx.
    destruct Hx as [->|Hx]; [exact Hid|].
    exact (proj1 (all_prefix_In v c (s set)) Hall x Hx).
Qed.

(** [Add] on a sorted slice of one kind: everything the set promises. *)
Lemma Add_sorted (v c : N) (set : SortedCidSet) (id : Cid) :
  all_prefix v c (s set) = true -> same_prefix v c id = true ->
  increasing cidLess (s set) = true ->
  snd (Add set id) = negb (Has set id) /\
  increasing cidLess (s (fst (Add set id))) = true /\
  all_prefix v c (s (fst (Add set id))) = true /\
  Has (fst (Add set id)) id = true /\
  (forall x, In x (s (fst (Add set id))) <-> x = id \/ In x (s set)).
Proof.
  intros Hall Hid Hinc.
  pose proof (Add_keeps_adjacent_pairs set id Hinc) as Hinc'.
  pose proof (Add_all_prefix v c set id Hall Hid) as Hall'.
  assert (Hel : forall x,
             In x (s (fst (Add set id))) <-> x = id \/ In x (s set)).
  { intros x. destruct (Has set id) eqn:Hh.
    - rewrite (Add_when_Has set id Hh). cbn [fst].
      split; [auto|]. intros [->|Hx]; [apply Has_In; exact Hh | exact Hx].
    - apply Add_In. exact Hh. }
  split; [|split; [exact Hinc'|split; [exact Hall'|split; [|exact Hel]]]].
  - unfold Add, Has. destruct (found_at set (search set id) id); reflexivity.
  - apply (@In_Has v c); try assumption. apply Hel. left. reflexivity.
Qed.

(** [Remove] on a sorted slice of one kind. *)
Lemma Remove_sorted (v c : N) (set : SortedCidSet) (id : Cid) :
  all_prefix v c (s set) = true -> same_prefix v c id = true ->
  increasing cidLess (s set) = true ->
  snd (Remove set id) = Has set id /\
  increasing cidLess (s (fst (Remove set id))) = true /\
  all_prefix v c (s (fst (Remove set id))) = true /\
  Has (fst (Remove set id)) id = false /\
  (forall x, In x (s (fst (Remove set id))) <-> x <> id /\ In x (s set)).
Proof.
  intros Hall Hid Hinc. destruct (Has set id) eqn:Hh.
  - destruct (Remove_hit set id Hh) as [l1 [l2 [Hl [_ Hr]]]].
    rewrite Hr. cbn [fst snd s].
    assert (Hlex : increasing cidLexLess (s set) = true)
      by (rewrite <- (@increasing_same_prefix v c (s set) Hall); exact Hinc).
    rewrite Hl in Hlex.
    pose proof (NoDup_remove_2 _ _ _ (lex_NoDup _ Hlex)) as Hnotin.
    assert (Hall' : all_prefix v c (l1 ++ l2) = true).
    { apply all_prefix_In. intros x Hx.
      apply (proj1 (all_prefix_In v c (s set)) Hall). rewrite Hl.
      apply in_app_or in Hx. apply in_or_app.
      destruct Hx as [Hx|Hx]; [left; exact Hx | right; right; exact Hx]. }
    assert (Hinc' : increasing cidLess (l1 ++ l2) = true).
    { rewrite (@increasing_same_prefix v c (l1 ++ l2) Hall').
      exact (@lex_remove l1 id l2 Hlex). }
    split; [reflexivity|]. split; [exact Hinc'|]. split; [exact Hall'|].
    split.
    + destruct (Has (mkSet (l1 ++ l2)) id) eqn:Hh'; [|reflexivity].
      apply Has_In in Hh'. contradiction.
    + intros x. rewrite Hl, !in_app_iff. simpl. split.
      * intros Hx. split.
        -- intros ->. apply Hnotin. apply in_or_app. exact Hx.
        -- destruct Hx as [Hx|Hx]; auto.
      * intros [Hne [Hx|[Hx|Hx]]]; auto. congruence.
  - rewrite (Remove_miss set id Hh). cbn [fst snd].
    split; [reflexivity|]. split; [exact Hinc|]. split; [exact Hall|].
    split; [exact Hh|].
    intros x. split.
    + intros Hx. split; [|exact Hx]. intros ->.
      rewrite (@In_Has v c set id Hall Hid Hinc Hx) in Hh. discriminate.
    + intros [_ Hx]. exact Hx.
Qed.

(** [NewSortedCidSet] on CIDs of one kind: sorted, of that kind, and with
    exactly the given items. *)
Lemma NewSortedCidSet_sorted (v c : N) (ids : list Cid) :
  all_prefix v c ids = true ->
  increasing cidLess (s (NewSortedCidSet ids)) = true /\
  all_prefix v c (s (NewSortedCidSet ids)) = true /\
  (forall x, In x (s (NewSortedCidSet ids)) <-> In x ids).
Proof.
  induction ids as [|id ids IH] using rev_ind; intros Hall.
  - split; [reflexivity|]. split; [reflexivity|]. intros x. reflexivity.
  - unfold all_prefix in Hall. rewrite forallb_app in Hall.
    apply andb_true_iff in Hall. destruct Hall as [Hids Hid].
    simpl in Hid. rewrite andb_true_r in Hid.
    destruct (IH Hids) as [Hinc [Hpre Hel]].
    rewrite NewSortedCidSet_snoc.
    destruct (Add_sorted v c (NewSortedCidSet ids) id Hpre Hid Hinc)
      as [_ [Hinc' [Hpre' [_ Hel']]]].
    split; [exact Hinc'|]. split; [exact Hpre'|].
    intros x. rewrite Hel', Hel, in_app_iff. simpl. intuition auto.
Qed.

(** ** Properties read off the code *)

(** X1. The index [search] returns lies within the slice (the length
    included); the item just before it, when there is one, is [cidLess]
    than [id]; the item at it, when there is one, is not. *)
Theorem X1_search_brackets_the_id (set : SortedCidSet) (id : Cid) :
  search set id <= Len set /\
  (search set id = 0 \/
   exists p, nth_error (s set) (search set id - 1) = Some p /\
             cidLess p id = true) /\
  (search set id = Len set \/
   exists q, nth_error (s set) (search set id) = Some q /\
             cidLess q id = false).
Proof. unfold Len. apply search_post. Qed.

(** X2. [Add] either finds [id] at the searched index, returns false and
    leaves the set as it is, or returns true and puts [id] at the searched
    index, every other item keeping its relative position. *)
Theorem X2_Add_inserts_at_the_searched_index (set : SortedCidSet) (id : Cid) :
  exists l1 l2,
    s set = l1 ++ l2 /\ length l1 = search set id /\
    Add set id =
    if Has set id then (set, false) else (mkSet (l1 ++ id :: l2), true).
Proof.
  exists (firstn (search set id) (s set)), (skipn (search set id) (s set)).
  split; [symmetry; apply firstn_skipn|].
  split; [apply firstn_length_le; apply search_le|].
  destruct (Has set id) eqn:Hh;
    [apply Add_when_Has | apply Add_miss]; exact Hh.
Qed.

(** X3. [Remove] returns what [Has] returns: on a miss the set is left as
    it is; on a hit exactly the one occurrence of [id] at the searched
    index is taken out and the other items keep their order. *)
Theorem X3_Remove_deletes_one_occurrence (set : SortedCidSet) (id : Cid) :
  (Has set id = false /\ Remove set id = (set, false)) \/
  (Has set id = true /\
   exists l1 l2,
     s set = l1 ++ id :: l2 /\ length l1 = search set id /\
     Remove set id = (mkSet (l1 ++ l2), true)).
Proof.
  destruct (Has set id) eqn:Hh.
  - right. split; [reflexivity|]. apply Remove_hit. exact Hh.
  - left. split; [reflexivity|]. apply Remove_miss. exact Hh.
Qed.

(** X4. If every adjacent pair of the slice is in [cidLess], it still is
    after [Add], whatever is added. *)
Theorem X4_Add_keeps_adjacent_pairs_in_cidLess
    (set : SortedCidSet) (id : Cid) :
  increasing cidLess (s set) = true ->
  increasing cidLess (s (fst (Add set id))) = true.
Proof. apply Add_keeps_adjacent_pairs. Qed.

Lemma X4_witness :
  increasing cidLess (s setAB) = true /\
  increasing cidLess (s (fst (Add setAB cidA))) = true.
Proof.
  split; [run|].
  apply (X4_Add_keeps_adjacent_pairs_in_cidLess setAB cidA). run.
Defined.

(** X5. A set made by [NewSortedCidSet], from any list of CIDs, has every
    adjacent pair in [cidLess], and marshalling it and unmarshalling the
    result with the CBOR transforms gives the same set back without
    error. *)
Theorem X5_NewSortedCidSet_survives_the_round_trip (ids : list Cid) :
  increasing cidLess (s (NewSortedCidSet ids)) = true /\
  TransformUnmarshal (fst (TransformMarshal (NewSortedCidSet ids)))
    = (NewSortedCidSet ids, None).
Proof.
  pose proof (NewSortedCidSet_adjacent ids) as Hinc.
  split; [exact Hinc|].
  unfold TransformMarshal, TransformUnmarshal. cbn [fst].
  apply first_unsorted_increasing in Hinc. rewrite Hinc.
  destruct (NewSortedCidSet ids). reflexivity.
Qed.

(** X6. The CBOR unmarshal transform either accepts the list, when every
    adjacent pair is in [cidLess], and returns it unchanged as the set; or
    returns the zero set with an error naming the first adjacent pair that
    is not in [cidLess]. *)
Theorem X6_TransformUnmarshal_outcome (l : list Cid) :
  (increasing cidLess l = true /\ TransformUnmarshal l = (mkSet l, None)) \/
  (increasing cidLess l = false /\
   exists a b l1 l2,
     l = l1 ++ a :: b :: l2 /\ cidLess a b = false /\
     increasing cidLess (l1 ++ [a]) = true /\
     TransformUnmarshal l = (mkSet [], Some (ErrInvalidSerialization a b))).
Proof.
  unfold TransformUnmarshal.
  destruct (first_unsorted l) as [[a b]|] eqn:Hf.
  - right. split.
    + apply not_true_iff_false. intros Hinc.
      apply first_unsorted_increasing in Hinc. congruence.
    + destruct (first_unsorted_Some l Hf) as [l1 [l2 [Hl [Hab Hinc]]]].
      exists a, b, l1, l2. auto.
  - left. split; [apply first_unsorted_increasing; exact Hf | reflexivity].
Qed.

(** X7. [UnmarshalJSON] either replaces the receiver by the decoded list,
    when the decoder succeeds and every adjacent pair of the list is in
    [cidLess]; or returns an error and leaves the receiver untouched. *)
Theorem X7_UnmarshalJSON_outcome
    (dec : list byte -> Error + list Cid) (set : SortedCidSet)
    (b : list byte) :
  (exists ts,
     dec b = inr ts /\ increasing cidLess ts = true /\
     UnmarshalJSON dec set b = (mkSet ts, None)) \/
  (fst (UnmarshalJSON dec set b) = set /\
   snd (UnmarshalJSON dec set b) <> None /\
   (forall ts, dec b = inr ts -> increasing cidLess ts = false)).
Proof.
  unfold UnmarshalJSON. destruct (dec b) as [e|ts] eqn:Hd.
  - right. split; [reflexivity|]. split; [discriminate|].
    intros ts Hts. discriminate Hts.
  - destruct (first_unsorted ts) as [pr|] eqn:Hf.
    + right. split; [reflexivity|]. split; [discriminate|].
      intros ts' Hts. inversion Hts; subst ts'.
      apply not_true_iff_false. intros Hinc.
      apply first_unsorted_increasing in Hinc. congruence.
    + left. exists ts. split; [reflexivity|].
      split; [apply first_unsorted_increasing; exact Hf | reflexivity].
Qed.

(** X8. Iterating a set from [Iter] with [Complete], [Value] and [Next], as
    [ToSlice] does, yields every item of the slice once, in slice order,
    and never a nil. *)
Theorem X8_ToSlice_is_the_slice (set : SortedCidSet) :
  ToSlice set = map Some (s set) /\ length (ToSlice set) = Len set.
Proof.
  rewrite ToSlice_spec. split; [reflexivity | apply length_map].
Qed.

Lemma advance_spec (set : SortedCidSet) (k : nat) :
  advance k (Iter set) = mkIter (s set) (Nat.min k (Len set)).
Proof.
  unfold Len. induction k as [|k IH]; [reflexivity|].
  cbn [advance]. rewrite IH. unfold Next. cbn [it_i it_s].
  destruct (Nat.ltb_spec (Nat.min k (length (s set))) (length (s set)))
    as [Hlt|Hge]; cbn [fst]; f_equal; lia.
Qed.

(** X9. After [k] calls of [Next] on a fresh iterator the cursor is at [k],
    or at the length once [k] passes it, so it never leaves the slice;
    [Complete] holds exactly from the length on; [Value] is the item at
    position [k], and nil from the length on; and the next [Next] returns
    true exactly when there is an item at position [k + 1]. *)
Theorem X9_iterator_walk (set : SortedCidSet) (k : nat) :
  it_s (advance k (Iter set)) = s set /\
  it_i (advance k (Iter set)) = Nat.min k (Len set) /\
  Complete (advance k (Iter set)) = (Len set <=? k) /\
  Value (advance k (Iter set)) = nth_error (s set) k /\
  snd (Next (advance k (Iter set))) = (S k <? Len set).
Proof.
  rewrite advance_spec. unfold Complete, Value, Next, Len, at_index.
  cbn [it_i it_s].
  split; [reflexivity|]. split; [reflexivity|]. split; [|split].
  - destruct (Nat.leb_spec (length (s set)) k);
      destruct (Nat.leb_spec (length (s set)) (Nat.min k (length (s set))));
      try reflexivity; lia.
  - destruct (Nat.ltb_spec (Nat.min k (length (s set))) (length (s set)))
      as [Hlt|Hge].
    + f_equal. lia.
    + symmetry. apply nth_error_None. lia.
  - destruct (Nat.ltb_spec (Nat.min k (length (s set))) (length (s set)))
      as [Hlt|Hge]; cbn [snd].
    + f_equal. lia.
    + symmetry. apply Nat.ltb_ge. lia.
Qed.

(** X10. [Equals] returns true on a set and itself, and returns true only
    on sets of the same length. *)
Theorem X10_Equals_reflexive_and_length (s1 s2 : SortedCidSet) :
  Equals s1 s1 = true /\ (Equals s1 s2 = true -> Len s1 = Len s2).
Proof.
  split.
  - apply Equals_spec. split; [reflexivity|].
    unfold Len, at_index. destruct (s s1) as [|a l]; [left; reflexivity|].
    right. simpl. apply Cid_Equals_eq. reflexivity.
  - intros H. apply Equals_spec in H. apply H.
Qed.

Lemma X10_witness :
  Equals setAB setAB = true /\ Equals setAB setAB' = true /\
  Len setAB = Len setAB'.
Proof.
  destruct (X10_Equals_reflexive_and_length setAB setAB') as [Hr Hl].
  split; [exact Hr|]. split; [run|]. apply Hl. run.
Defined.

(** X11. On two CIDs of the same version and codec [cidLess] is the
    lexicographic order of the triple: it is asymmetric and relates any two
    distinct such CIDs one way or the other. *)
Theorem X11_cidLess_on_one_kind_is_the_triple_order
    (v c : N) (a b : Cid) :
  same_prefix v c a = true -> same_prefix v c b = true ->
  cidLess a b = cidLexLess a b /\
  (cidLess a b = true -> cidLess b a = false) /\
  (a <> b -> cidLess a b = true \/ cidLess b a = true).
Proof.
  intros Ha Hb.
  rewrite (@cidLess_same_prefix v c a b Ha Hb).
  rewrite (@cidLess_same_prefix v c b a Hb Ha).
  split; [reflexivity|]. split.
  - apply cidLexLess_asym.
  - apply cidLexLess_total.
Qed.

Lemma X11_witness :
  same_prefix 1 85 cidRaw0 = true /\ same_prefix 1 85 cidA = true /\
  cidLess cidRaw0 cidA = cidLexLess cidRaw0 cidA /\
  cidLess cidA cidRaw0 = false.
Proof.
  split; [reflexivity|]. split; [reflexivity|].
  destruct (X11_cidLess_on_one_kind_is_the_triple_order
              1 85 cidRaw0 cidA eq_refl eq_refl) as [He [Ha _]].
  split; [exact He|]. apply Ha. reflexivity.
Defined.

(** X12. On a set whose CIDs share version and codec and whose adjacent
    pairs are in [cidLess], [Has] of a CID of that kind is true exactly
    when the CID is in the slice. *)
Theorem X12_Has_finds_exactly_the_items
    (v c : N) (set : SortedCidSet) (id : Cid) :
  all_prefix v c (s set) = true -> same_prefix v c id = true ->
  increasing cidLess (s set) = true ->
  (Has set id = true <-> In id (s set)).
Proof. apply Has_iff_In. Qed.

Lemma X12_witness :
  all_prefix 1 85 (s setRaw) = true /\ same_prefix 1 85 cidA = true /\
  increasing cidLess (s setRaw) = true /\
  (Has setRaw cidA = true <-> In cidA (s setRaw)).
Proof.
  split; [run|]. split; [run|]. split; [run|].
  apply (X12_Has_finds_exactly_the_items 1 85 setRaw cidA); run.
Defined.

(** X13. On such a set [Add] of a CID of that kind returns true exactly
    when [Has] was false, keeps the slice strictly increasing and of that
    kind, makes [Has] hold, and the items afterwards are the CID and the
    items before. *)
Theorem X13_Add_on_a_sorted_set_of_one_kind
    (v c : N) (set : SortedCidSet) (id : Cid) :
  all_prefix v c (s set) = true -> same_prefix v c id = true ->
  increasing cidLess (s set) = true ->
  snd (Add set id) = negb (Has set id) /\
  increasing cidLess (s (fst (Add set id))) = true /\
  all_prefix v c (s (fst (Add set id))) = true /\
  Has (fst (Add set id)) id = true /\
  (forall x, In x (s (fst (Add set id))) <-> x = id \/ In x (s set)).
Proof. apply Add_sorted. Qed.

Lemma X13_witness :
  all_prefix 1 85 (s setRaw) = true /\ same_prefix 1 85 cidRaw0 = true /\
  increasing cidLess (s setRaw) = true /\
  snd (Add setRaw cidRaw0) = negb (Has setRaw cidRaw0) /\
  Has (fst (Add setRaw cidRaw0)) cidRaw0 = true.
Proof.
  split; [run|]. split; [run|]. split; [run|].
  destruct (X13_Add_on_a_sorted_set_of_one_kind 1 85 setRaw cidRaw0)
    as [Hr [_ [_ [Hh _]]]]; try run.
  split; [exact Hr | exact Hh].
Defined.

(** X14. On such a set [Remove] of a CID of that kind returns what [Has]
    returned, keeps the slice strictly increasing and of that kind, makes
    [Has] false, and the items afterwards are the items before other than
    the CID. *)
Theorem X14_Remove_on_a_sorted_set_of_one_kind
    (v c : N) (set : SortedCidSet) (id : Cid) :
  all_prefix v c (s set) = true -> same_prefix v c id = true ->
  increasing cidLess (s set) = true ->
  snd (Remove set id) = Has set id /\
  increasing cidLess (s (fst (Remove set id))) = true /\
  all_prefix v c (s (fst (Remove set id))) = true /\
  Has (fst (Remove set id)) id = false /\
  (forall x, In x (s (fst (Remove set id))) <-> x <> id /\ In x (s set)).
Proof. apply Remove_sorted. Qed.

Lemma X14_witness :
  all_prefix 1 85 (s setRaw) = true /\ same_prefix 1 85 cidA = true /\
  increasing cidLess (s setRaw) = true /\
  snd (Remove setRaw cidA) = Has setRaw cidA /\
  Has (fst (Remove setRaw cidA)) cidA = false.
Proof.
  split; [run|]. split; [run|]. split; [run|].
  destruct (X14_Remove_on_a_sorted_set_of_one_kind 1 85 setRaw cidA)
    as [Hr [_ [_ [Hh _]]]]; try run.
  split; [exact Hr | exact Hh].
Defined.

(** X15. [NewSortedCidSet] on CIDs that share version and codec gives a
    slice that is strictly increasing in the lexicographic order of the
    triple, has no duplicate, and holds exactly the given CIDs. *)
Theorem X15_NewSortedCidSet_of_one_kind_is_sorted
    (v c : N) (ids : list Cid) :
  all_prefix v c ids = true ->
  increasing cidLexLess (s (NewSortedCidSet ids)) = true /\
  NoDup (s (NewSortedCidSet ids)) /\
  (forall x, In x (s (NewSortedCidSet ids)) <-> In x ids).
Proof.
  intros Hall.
  destruct (NewSortedCidSet_sorted v c ids Hall) as [Hinc [Hpre Hel]].
  rewrite (@increasing_same_prefix v c _ Hpre) in Hinc.
  split; [exact Hinc|]. split; [apply lex_NoDup; exact Hinc | exact Hel].
Qed.

Lemma X15_witness :
  all_prefix 1 85 [cidRaw2; cidRaw0; cidA; cidRaw0] = true /\
  increasing cidLexLess
    (s (NewSortedCidSet [cidRaw2; cidRaw0; cidA; cidRaw0])) = true /\
  NoDup (s (NewSortedCidSet [cidRaw2; cidRaw0; cidA; cidRaw0])).
Proof.
  split; [reflexivity|].
  destruct (X15_NewSortedCidSet_of_one_kind_is_sorted
              1 85 [cidRaw2; cidRaw0; cidA; cidRaw0] eq_refl)
    as [Hinc [Hnd _]].
  split; [exact Hinc | exact Hnd].
Defined.

(** X16. On CIDs that share version and codec the set [NewSortedCidSet]
    builds depends only on which CIDs are given, not on their order or
    repetition. *)
Theorem X16_NewSortedCidSet_ignores_order_and_repeats
    (v c : N) (ids1 ids2 : list Cid) :
  all_prefix v c ids1 = true -> all_prefix v c ids2 = true ->
  (forall x, In x ids1 <-> In x ids2) ->
  NewSortedCidSet ids1 = NewSortedCidSet ids2.
Proof.
  intros H1 H2 Hsame.
  destruct (NewSortedCidSet_sorted v c ids1 H1) as [Hinc1 [Hpre1 Hel1]].
  destruct (NewSortedCidSet_sorted v c ids2 H2) as [Hinc2 [Hpre2 Hel2]].
  rewrite (@increasing_same_prefix v c _ Hpre1) in Hinc1.
  rewrite (@increasing_same_prefix v c _ Hpre2) in Hinc2.
  assert (Hs : s (NewSortedCidSet ids1) = s (NewSortedCidSet ids2)).
  { apply lex_sorted_unique; try assumption.
    intros x. rewrite Hel1, Hel2. apply Hsame. }
  destruct (NewSortedCidSet ids1), (NewSortedCidSet ids2).
  simpl in Hs. rewrite Hs. reflexivity.
Qed.

Lemma X16_witness :
  all_prefix 1 85 [cidRaw2; cidRaw0; cidA] = true /\
  all_prefix 1 85 [cidA; cidRaw2; cidA; cidRaw0] = true /\
  NewSortedCidSet [cidRaw2; cidRaw0; cidA]
    = NewSortedCidSet [cidA; cidRaw2; cidA; cidRaw0].
Proof.
  split; [reflexivity|]. split; [reflexivity|].
  apply (X16_NewSortedCidSet_ignores_order_and_repeats 1 85);
    [reflexivity | reflexivity |].
  intros x. simpl. intuition auto.
Defined.

(** X17. On a list of CIDs that share version and codec the CBOR unmarshal
    transform succeeds exactly when the list is strictly increasing in the
    lexicographic order of the triple, and a list it accepts has no
    duplicate. *)
Theorem X17_decoder_rejects_duplicates_of_one_kind
    (v c : N) (l : list Cid) :
  all_prefix v c l = true ->
  (snd (TransformUnmarshal l) = None <-> increasing cidLexLess l = true) /\
  (snd (TransformUnmarshal l) = None -> NoDup l).
Proof.
  intros Hall. rewrite TransformUnmarshal_accepts.
  rewrite (@increasing_same_prefix v c l Hall).
  split; [reflexivity | apply lex_NoDup].
Qed.

Lemma X17_witness :
  all_prefix 1 85 [cidRaw0; cidA; cidRaw2] = true /\
  snd (TransformUnmarshal [cidRaw0; cidA; cidRaw2]) = None /\
  NoDup [cidRaw0; cidA; cidRaw2] /\
  snd (TransformUnmarshal [cidRaw0; cidA; cidA]) <> None.
Proof.
  split; [reflexivity|].
  destruct (X17_decoder_rejects_duplicates_of_one_kind
              1 85 [cidRaw0; cidA; cidRaw2] eq_refl) as [Hiff Hnd].
  destruct (X17_decoder_rejects_duplicates_of_one_kind
              1 85 [cidRaw0; cidA; cidA] eq_refl) as [Hiff' _].
  split; [apply Hiff; reflexivity|].
  split; [apply Hnd; apply Hiff; reflexivity|].
  intros Hacc. apply Hiff' in Hacc. discriminate Hacc.
Defined.

End SortedCidSetMore.

(** * Further properties of the chain-state facade *)

Module FacadeMore.

Import Cst.
Import FacadeFacts.

Section Generic.

Context {S B : Type} `{chainReadWriter S} `{Blockstore B} `{Decoder}.

Lemma bind_unfold {X Y : Type} (m : M X) (f : X -> M Y) :
  bind m f =
  match result m with
  | None => (trace m, None)
  | Some a => (trace m ++ trace (f a), result (f a))
  end.
Proof.
  destruct m as [t [a|]]; simpl; [|reflexivity].
  destruct (f a) as [t' b]. reflexivity.
Qed.

(** X18. Every failure of [ResolveAddressAt] before the registry state is
    consulted returns the undefined address, makes no further collaborator
    call, and hands on the collaborator's error: wrapped with "failed to
    load latest state" when the tipset state does not load, as it is when
    the tree lookup, the block store or the decoder fails. *)
Theorem X18_ResolveAddressAt_failures
    (chn : ChainStateReadWriter S B) (tipKey : TipSetKey) (addr : Address) :
  (forall err,
     GetTipSetState (readWriter chn) tipKey = inl err ->
     ResolveAddressAt chn tipKey addr =
     ([CallGetTipSetState tipKey],
      Some (Undef, Some (Wrapped err "failed to load latest state"))))
  /\
  (forall st init found e,
     GetTipSetState (readWriter chn) tipKey = inr st ->
     Tree_GetActor st InitActorAddr = (init, found, Some e) ->
     ResolveAddressAt chn tipKey addr =
     ([CallGetTipSetState tipKey; CallTreeGetActor InitActorAddr],
      Some (Undef, Some e)))
  /\
  (forall st init e,
     GetTipSetState (readWriter chn) tipKey = inr st ->
     Tree_GetActor st InitActorAddr = (Some init, true, None) ->
     bs_Get (bstore chn) (Head_Cid init) = inl e ->
     ResolveAddressAt chn tipKey addr =
     ([CallGetTipSetState tipKey; CallTreeGetActor InitActorAddr;
       CallBstoreGet (Head_Cid init)],
      Some (Undef, Some e)))
  /\
  (forall st init blk e,
     GetTipSetState (readWriter chn) tipKey = inr st ->
     Tree_GetActor st InitActorAddr = (Some init, true, None) ->
     bs_Get (bstore chn) (Head_Cid init) = inr blk ->
     encoding_Decode (RawData blk) = inl e ->
     ResolveAddressAt chn tipKey addr =
     ([CallGetTipSetState tipKey; CallTreeGetActor InitActorAddr;
       CallBstoreGet (Head_Cid init); CallDecode (RawData blk)],
      Some (Undef, Some e))).
Proof.
  unfold ResolveAddressAt. repeat apply conj.
  - intros err Hst. rewrite bind_call, Hst. reflexivity.
  - intros st init found e Hst Hinit.
    rewrite bind_call, Hst, bind_call, Hinit. reflexivity.
  - intros st init e Hst Hinit Hblk.
    rewrite bind_call, Hst, bind_call, Hinit. cbn [negb].
    rewrite bind_call, Hblk. reflexivity.
  - intros st init blk e Hst Hinit Hblk Hdec.
    rewrite bind_call, Hst, bind_call, Hinit. cbn [negb].
    rewrite bind_call, Hblk, bind_call, Hdec. reflexivity.
Qed.

(** X19. When the tipset state loads, the tree holds the init actor, the
    block store has its head state and the head state decodes,
    [ResolveAddressAt] returns exactly what the registry state's
    [ResolveAddress] returns for the address, after these four reads and in
    this order: tipset state, init actor, head state block, decoding. *)
Theorem X19_ResolveAddressAt_is_the_registry_lookup
    (chn : ChainStateReadWriter S B) (tipKey : TipSetKey) (addr : Address)
    (st : Tree) (init : Actor) (blk : Block) (state : InitState) :
  GetTipSetState (readWriter chn) tipKey = inr st ->
  Tree_GetActor st InitActorAddr = (Some init, true, None) ->
  bs_Get (bstore chn) (Head_Cid init) = inr blk ->
  encoding_Decode (RawData blk) = inr state ->
  ResolveAddressAt chn tipKey addr =
  ([CallGetTipSetState tipKey; CallTreeGetActor InitActorAddr;
    CallBstoreGet (Head_Cid init); CallDecode (RawData blk);
    CallResolveAddress addr],
   Some (ResolveAddress state addr)).
Proof. apply ResolveAddressAt_loaded. Qed.

(** X20. [GetActorAt]: a tipset state that does not load gives the wrapped
    error after that one call; a resolution error is returned as it is,
    with no actor lookup; an error of the actor lookup is returned as it
    is; and when the lookup finds the resolved identifier, the actor of the
    tree is returned with a nil error, the calls being the state load, the
    calls of the resolution, and the one lookup. *)
Theorem X20_GetActorAt_outcomes
    (chn : ChainStateReadWriter S B) (tipKey : TipSetKey) (addr : Address) :
  (forall err,
     GetTipSetState (readWriter chn) tipKey = inl err ->
     GetActorAt chn tipKey addr =
     ([CallGetTipSetState tipKey],
      Some (None, Some (Wrapped err "failed to load latest state"))))
  /\
  (forall st a e,
     GetTipSetState (readWriter chn) tipKey = inr st ->
     result (ResolveAddressAt chn tipKey addr) = Some (a, Some e) ->
     GetActorAt chn tipKey addr =
     (CallGetTipSetState tipKey :: trace (ResolveAddressAt chn tipKey addr),
      Some (None, Some e)))
  /\
  (forall st idAddr actr found e,
     GetTipSetState (readWriter chn) tipKey = inr st ->
     result (ResolveAddressAt chn tipKey addr) = Some (idAddr, None) ->
     Tree_GetActor st idAddr = (actr, found, Some e) ->
     result (GetActorAt chn tipKey addr) = Some (None, Some e))
  /\
  (forall st idAddr actr,
     GetTipSetState (readWriter chn) tipKey = inr st ->
     result (ResolveAddressAt chn tipKey addr) = Some (idAddr, None) ->
     Tree_GetActor st idAddr = (actr, true, None) ->
     GetActorAt chn tipKey addr =
     (CallGetTipSetState tipKey ::
        trace (ResolveAddressAt chn tipKey addr) ++ [CallTreeGetActor idAddr],
      Some (actr, None))).
Proof.
  unfold GetActorAt. repeat apply conj.
  - intros err Hst. rewrite bind_call, Hst. reflexivity.
  - intros st a e Hst Hres.
    rewrite bind_call, Hst, bind_unfold, Hres. cbn [trace result fst snd ret].
    rewrite app_nil_r. reflexivity.
  - intros st idAddr actr found e Hst Hres Hact.
    rewrite bind_call, Hst. cbn [result snd].
    rewrite result_bind, Hres, bind_call, Hact. reflexivity.
  - intros st idAddr actr Hst Hres Hact.
    rewrite bind_call, Hst, bind_unfold, Hres, bind_call, Hact.
    reflexivity.
Qed.

(** X21. [GetActorSignature], for a method other than the value transfer:
    an error of [GetActor] comes back wrapped with "failed to get actor"
    (so a missing actor is not the bare [ErrNotFound]); an error of the code
    loader comes back wrapped with "failed to load actor code"; and when
    the actor has code whose implementation exports the method, its
    signature is returned with a nil error. *)
Theorem X21_GetActorSignature_other_outcomes
    (chn : ChainStateReadWriter S B) (actorAddr : Address)
    (method : MethodNum) :
  (forall a e,
     method <> MethodSend ->
     result (GetActor chn actorAddr) = Some (a, Some e) ->
     result (GetActorSignature chn actorAddr method)
       = Some (None, Some (Wrapped e "failed to get actor")))
  /\
  (forall actor e,
     method <> MethodSend ->
     result (GetActor chn actorAddr) = Some (Some actor, None) ->
     Actor_Empty actor = false ->
     GetActorImpl (actors chn) (Code_Cid actor) = inl e ->
     result (GetActorSignature chn actorAddr method)
       = Some (None, Some (Wrapped e "failed to load actor code")))
  /\
  (forall actor executable signature,
     method <> MethodSend ->
     result (GetActor chn actorAddr) = Some (Some actor, None) ->
     Actor_Empty actor = false ->
     GetActorImpl (actors chn) (Code_Cid actor) = inr executable ->
     Signature executable method = inr signature ->
     result (GetActorSignature chn actorAddr method)
       = Some (Some signature, None)).
Proof.
  unfold GetActorSignature. repeat apply conj.
  - intros a e Hm Hget. apply N.eqb_neq in Hm. rewrite Hm.
    rewrite result_bind, Hget. reflexivity.
  - intros actor e Hm Hget Hempty Himpl. apply N.eqb_neq in Hm. rewrite Hm.
    rewrite result_bind, Hget, Hempty, bind_call, Himpl. reflexivity.
  - intros actor executable signature Hm Hget Hempty Himpl Hsig.
    apply N.eqb_neq in Hm. rewrite Hm.
    rewrite result_bind, Hget, Hempty, bind_call, Himpl, bind_call, Hsig.
    reflexivity.
Qed.

(** X22. [SetHead] never touches the block store or the code loader; with a
    key the chain store cannot look up it returns the lookup error and
    leaves the facade, head included, as it was; otherwise the chain store
    is asked to switch to the tipset found for the key, and its answer is
    the result. *)
Theorem X22_SetHead_frame_and_failure
    (chn : ChainStateReadWriter S B) (key : TipSetKey) :
  bstore (fst (SetHead chn key)) = bstore chn /\
  actors (fst (SetHead chn key)) = actors chn /\
  (forall err,
     GetTipSet (readWriter chn) key = inl err ->
     SetHead chn key = (chn, Some err) /\
     Head (fst (SetHead chn key)) = Head chn) /\
  (forall headTs,
     GetTipSet (readWriter chn) key = inr headTs ->
     readWriter (fst (SetHead chn key))
       = fst (rw_SetHead (readWriter chn) headTs) /\
     snd (SetHead chn key) = snd (rw_SetHead (readWriter chn) headTs)).
Proof.
  unfold SetHead. repeat apply conj.
  - destruct (GetTipSet (readWriter chn) key) as [e|ts]; [reflexivity|].
    destruct (rw_SetHead (readWriter chn) ts). reflexivity.
  - destruct (GetTipSet (readWriter chn) key) as [e|ts]; [reflexivity|].
    destruct (rw_SetHead (readWriter chn) ts). reflexivity.
  - intros err Hk. rewrite Hk. split; reflexivity.
  - intros headTs Hk. rewrite Hk.
    destruct (rw_SetHead (readWriter chn) headTs). split; reflexivity.
Qed.

(** X23. [GetActorStateAt]: an error of [GetActorAt] is returned as it is
    and the block store is not read; when the actor is found, a block store
    error for its head state is returned as it is and nothing is decoded;
    and when [ReadObj] gives bytes for the head state, the result is the
    decoding of exactly those bytes, value or error. *)
Theorem X23_GetActorStateAt_outcomes {T : Type}
    (decode : list byte -> Error + T)
    (chn : ChainStateReadWriter S B) (tipKey : TipSetKey) (addr : Address) :
  (forall a e,
     result (GetActorAt chn tipKey addr) = Some (a, Some e) ->
     GetActorStateAt decode chn tipKey addr =
     (trace (GetActorAt chn tipKey addr), Some (None, Some e)))
  /\
  (forall act e,
     result (GetActorAt chn tipKey addr) = Some (Some act, None) ->
     bs_Get (bstore chn) (Head_Cid act) = inl e ->
     GetActorStateAt decode chn tipKey addr =
     (trace (GetActorAt chn tipKey addr) ++ [CallBstoreGet (Head_Cid act)],
      Some (None, Some e)))
  /\
  (forall act bytes,
     result (GetActorAt chn tipKey addr) = Some (Some act, None) ->
     result (ReadObj chn (Head_Cid act)) = Some (Some bytes, None) ->
     result (GetActorStateAt decode chn tipKey addr) =
     Some (match decode bytes with
           | inl e => (None, Some e)
           | inr v => (Some v, None)
           end)).
Proof.
  unfold GetActorStateAt. repeat apply conj.
  - intros a e Hget. rewrite bind_unfold, Hget.
    cbn [trace result fst snd ret]. rewrite app_nil_r. reflexivity.
  - intros act e Hget Hblk. rewrite bind_unfold, Hget, bind_call, Hblk.
    reflexivity.
  - intros act bytes Hget Hread. rewrite result_bind, Hget.
    unfold ReadObj in Hread. rewrite bind_call in Hread.
    rewrite bind_call.
    destruct (bs_Get (bstore chn) (Head_Cid act)) as [e|blk];
      cbn [result trace ret snd fst] in *; [discriminate Hread|].
    inversion Hread; subst bytes.
    rewrite bind_call. destruct (decode (RawData blk)); reflexivity.
Qed.

End Generic.

Lemma X18_witness :
  ResolveAddressAt faultyChn key1 (BLS [x0a]) =
    ([CallGetTipSetState key1],
     Some (Undef, Some (Wrapped ErrNotFound "failed to load latest state")))
  /\
  ResolveAddressAt faultyChn key2 (BLS [x0a]) =
    ([CallGetTipSetState key2; CallTreeGetActor InitActorAddr],
     Some (Undef, Some (ErrExternal "state tree read failed")))
  /\
  ResolveAddressAt faultyChn key3 (BLS [x0a]) =
    ([CallGetTipSetState key3; CallTreeGetActor InitActorAddr;
      CallBstoreGet lostHead],
     Some (Undef, Some ErrNotFound))
  /\
  ResolveAddressAt faultyChn key4 (BLS [x0a]) =
    ([CallGetTipSetState key4; CallTreeGetActor InitActorAddr;
      CallBstoreGet junkHead; CallDecode [x02]],
     Some (Undef, Some (ErrExternal "decode"))).
Proof.
  repeat apply conj.
  - apply (proj1 (X18_ResolveAddressAt_failures faultyChn key1 (BLS [x0a]))).
    reflexivity.
  - apply (proj1 (proj2
             (X18_ResolveAddressAt_failures faultyChn key2 (BLS [x0a])))
             treeBroken None false); reflexivity.
  - apply (proj1 (proj2 (proj2
             (X18_ResolveAddressAt_failures faultyChn key3 (BLS [x0a]))))
             treeLostHead (mkActor initCode lostHead 0 0)); reflexivity.
  - apply (proj2 (proj2 (proj2
             (X18_ResolveAddressAt_failures faultyChn key4 (BLS [x0a]))))
             treeJunkHead (mkActor initCode junkHead 0 0)
             (mkBlock junkHead [x02])); reflexivity.
Defined.

Lemma X19_witness :
  ResolveAddressAt exampleChn key0 (BLS [x0a]) =
  ([CallGetTipSetState key0; CallTreeGetActor InitActorAddr;
    CallBstoreGet initHead; CallDecode [x01];
    CallResolveAddress (BLS [x0a])],
   Some (IDAddress 100, None)).
Proof.
  apply (X19_ResolveAddressAt_is_the_registry_lookup
           exampleChn key0 (BLS [x0a]) (st := exampleTree)
           (init := initActor) (blk := mkBlock initHead [x01])
           (state := exampleInitState)); reflexivity.
Defined.

Lemma X20_witness :
  GetActorAt faultyChn key1 (BLS [x0a]) =
    ([CallGetTipSetState key1],
     Some (None, Some (Wrapped ErrNotFound "failed to load latest state")))
  /\
  result (GetActorAt faultyChn key0 (BLS [xff]))
    = Some (None, Some actorNotRegisteredError)
  /\
  result (GetActorAt faultyChn key5 (BLS [x0a]))
    = Some (None, Some (ErrExternal "state tree read failed"))
  /\
  result (GetActorAt faultyChn key0 (BLS [x0a]))
    = Some (Some accountActor, None).
Proof.
  repeat apply conj.
  - apply (proj1 (X20_GetActorAt_outcomes faultyChn key1 (BLS [x0a]))).
    reflexivity.
  - rewrite (proj1 (proj2 (X20_GetActorAt_outcomes faultyChn key0 (BLS [xff])))
               exampleTree Undef actorNotRegisteredError)
      by reflexivity.
    reflexivity.
  - apply (proj1 (proj2 (proj2
             (X20_GetActorAt_outcomes faultyChn key5 (BLS [x0a]))))
             treePartial (IDAddress 100) None false); reflexivity.
  - rewrite (proj2 (proj2 (proj2
               (X20_GetActorAt_outcomes faultyChn key0 (BLS [x0a]))))
               exampleTree (IDAddress 100) (Some accountActor))
      by reflexivity.
    reflexivity.
Defined.

Lemma X21_witness :
  result (GetActorSignature exampleChn (SECP256K1 [x0c]) 1%N)
    = Some (None, Some (Wrapped ErrNotFound "failed to get actor"))
  /\
  result (GetActorSignature exampleChn InitActorAddr 1%N)
    = Some (None, Some (Wrapped (ErrExternal "no implementation")
                                "failed to load actor code"))
  /\
  result (GetActorSignature exampleChn (BLS [x0a]) 1%N)
    = Some (Some (mkSig ["address"%string] []), None).
Proof.
  repeat apply conj.
  - apply (proj1 (X21_GetActorSignature_other_outcomes
                    exampleChn (SECP256K1 [x0c]) 1%N) None);
      [discriminate | reflexivity].
  - apply (proj1 (proj2 (X21_GetActorSignature_other_outcomes
                           exampleChn InitActorAddr 1%N)) initActor);
      [discriminate | reflexivity | reflexivity | reflexivity].
  - apply (proj2 (proj2 (X21_GetActorSignature_other_outcomes
                           exampleChn (BLS [x0a]) 1%N))
             accountActor accountExecutable);
      [discriminate | reflexivity | reflexivity | reflexivity | reflexivity].
Defined.

Lemma X22_witness :
  SetHead exampleChn [] = (exampleChn, Some ErrNotFound) /\
  Head (fst (SetHead exampleChn [])) = Head exampleChn /\
  readWriter (fst (SetHead exampleChn key1))
    = mkStore key1 (cs_tipsets exampleStore) /\
  snd (SetHead exampleChn key1) = None.
Proof.
  destruct (proj1 (proj2 (proj2 (X22_SetHead_frame_and_failure exampleChn [])))
              ErrNotFound) as [Hs Hh]; [reflexivity|].
  destruct (proj2 (proj2 (proj2 (X22_SetHead_frame_and_failure exampleChn key1)))
              (mkTipSet key1 11)) as [Hr He]; [reflexivity|].
  repeat apply conj; [exact Hs | exact Hh | exact Hr | exact He].
Defined.

Lemma X23_witness :
  result (GetActorStateAt encoding_Decode exampleChn key0 (SECP256K1 [x0c]))
    = Some (None, Some ErrNotFound)
  /\
  result (GetActorStateAt encoding_Decode exampleChn key0 (BLS [x0a]))
    = Some (None, Some ErrNotFound)
  /\
  result (GetActorStateAt encoding_Decode exampleChn key0 InitActorAddr)
    = Some (Some exampleInitState, None).
Proof.
  repeat apply conj.
  - rewrite (proj1 (X23_GetActorStateAt_outcomes encoding_Decode
                      exampleChn key0 (SECP256K1 [x0c]))
               None ErrNotFound) by reflexivity.
    reflexivity.
  - rewrite (proj1 (proj2 (X23_GetActorStateAt_outcomes encoding_Decode
                             exampleChn key0 (BLS [x0a])))
               accountActor ErrNotFound) by reflexivity.
    reflexivity.
  - rewrite (proj2 (proj2 (X23_GetActorStateAt_outcomes encoding_Decode
                             exampleChn key0 InitActorAddr))
               initActor [x01]) by reflexivity.
    reflexivity.
Defined.

End FacadeMore.
